(** * Sparkify ETL (etl.py): a shallow embedding and its properties

    The program reads song files and log files with pandas, and issues
    parameterised SQL statements through a psycopg2 cursor.  The embedding
    keeps the three layers of the script apart:

    - cells, records and data frames, as far as [etl.py] uses pandas;
    - the cursor, as a state and exception monad over an abstract store;
    - the loader [process_data], over the cursor, the connection and the
      console.  *)

From stdpp Require Import base numbers list strings gmap pretty.

Local Open Scope string_scope.
Local Open Scope list_scope.

(** ** Cells *)

(** A cell of a data frame, or a parameter bound to a statement.  [VNull]
    stands for [None], [NaN] and [NaT] alike.  The script never computes
    with floats: it reads them and hands them to the store, so a float is
    kept as its binary64 bit pattern.  [VTime ms] is a naive timestamp,
    [ms] milliseconds after 1970-01-01T00:00:00. *)
Inductive value :=
| VNull
| VInt (z : Z)
| VFloat (bits : Z)
| VStr (s : string)
| VTime (ms : Z).

#[global] Instance value_eq_dec : EqDecision value.
Proof. solve_decision. Defined.

(** The number in a float cell.  A binary64 bit pattern [bits] (taken
    modulo 2^64, so that a signed reading of the 64 bits is accepted)
    stands for [m * 2^e], an infinity, or a NaN. *)
Inductive number :=
| Finite (m e : Z)
| Infinite (negative : bool)
| NotANumber.

#[global] Instance number_eq_dec : EqDecision number.
Proof. solve_decision. Defined.

Definition binary64 (bits : Z) : number :=
  let b := (bits `mod` 2 ^ 64)%Z in
  let negative := bool_decide (2 ^ 63 ≤ b)%Z in
  let e := ((b `div` 2 ^ 52) `mod` 2048)%Z in
  let m := (b `mod` 2 ^ 52)%Z in
  let signed (x : Z) := if negative then (- x)%Z else x in
  if bool_decide (e = 2047%Z) then
    if bool_decide (m = 0%Z) then Infinite negative else NotANumber
  else if bool_decide (e = 0%Z) then Finite (signed m) (-1074)
  else Finite (signed (2 ^ 52 + m)%Z) (e - 1075).

(** The integer that a number is, when it is one. *)
Definition integral (x : number) : option Z :=
  match x with
  | Finite m e =>
      if bool_decide (0 ≤ e)%Z then Some (m * 2 ^ e)%Z
      else if bool_decide (m `mod` 2 ^ (- e) = 0)%Z then Some (m `div` 2 ^ (- e))%Z
      else None
  | _ => None
  end.

(** ** Exceptions and outcomes *)

Inductive exn :=
| KeyError (k : string)
| AttributeError (k : string)
| IndexError
| ValueError
| OutOfBoundsDatetime
| DatabaseError.

Inductive outcome (A : Type) :=
| Ok (a : A)
| Raise (e : exn).
Arguments Ok {A} a.
Arguments Raise {A} e.

Definition obind {A B} (o : outcome A) (k : A → outcome B) : outcome B :=
  match o with
  | Ok a => k a
  | Raise e => Raise e
  end.

Fixpoint omap {A B} (f : A → outcome B) (l : list A) : outcome (list B) :=
  match l with
  | [] => Ok []
  | x :: l' => obind (f x) (λ y, obind (omap f l') (λ ys, Ok (y :: ys)))
  end.

(** ** The calendar behind [Series.dt]

    Timestamps are naive (no time zone), so the fields are those of the
    proleptic Gregorian calendar at UTC.  Days are counted from
    1970-01-01, which is day 0. *)
Section calendar.
Local Open Scope Z_scope.

Definition ms_per_day : Z := 86400000.
Definition ms_per_hour : Z := 3600000.

Definition days_of_ms (ms : Z) : Z := ms `div` ms_per_day.

Definition is_leapyear (y : Z) : bool :=
  (y `mod` 4 =? 0) && (negb (y `mod` 100 =? 0) || (y `mod` 400 =? 0)).

(** The calendar, spelled out: the days before a year (from 0001-01-01),
    the days of a year before a month, and the length of a month. *)
Definition days_before_year (y : Z) : Z :=
  365 * (y - 1) + (y - 1) `div` 4 - (y - 1) `div` 100 + (y - 1) `div` 400.

Definition days_before_month (y m : Z) : Z :=
  nth (Z.to_nat (m - 1)) [0; 31; 59; 90; 120; 151; 181; 212; 243; 273; 304; 334] 0
  + (if (2 <? m) && is_leapyear y then 1 else 0).

Definition days_in_month (y m : Z) : Z :=
  if m =? 2 then (if is_leapyear y then 29 else 28)
  else if (m =? 4) || (m =? 6) || (m =? 9) || (m =? 11) then 30 else 31.

(** The day number of the civil date [y]-[m]-[d]. *)
Definition days_from_civil (y m d : Z) : Z :=
  days_before_year y + days_before_month y m + d - 1 - 719162.

Definition year_start (y : Z) : Z := days_from_civil y 1 1.

(** The civil date (year, month, day) of a day number, by 400-year eras of
    146097 days and years that begin in March. *)
Definition civil_from_days (z : Z) : Z * Z * Z :=
  let z := z + 719468 in
  let era := z `div` 146097 in
  let doe := z `mod` 146097 in
  let yoe := (doe - doe `div` 1460 + doe `div` 36524 - doe `div` 146096) `div` 365 in
  let doy := doe - (365 * yoe + yoe `div` 4 - yoe `div` 100) in
  let mp := (5 * doy + 2) `div` 153 in
  let d := doy - (153 * mp + 2) `div` 5 + 1 in
  let m := if mp <? 10 then mp + 3 else mp - 9 in
  let y := yoe + era * 400 in
  (if m <=? 2 then y + 1 else y, m, d).

(** Monday is 0; day 0 was a Thursday. *)
Definition weekday_of_day (z : Z) : Z := (z + 3) `mod` 7.

(** Day of the year, from 1. *)
Definition day_of_year (z : Z) : Z :=
  z - year_start (civil_from_days z).1.1 + 1.

(** The week number the way pandas computes it: an estimate from the day
    of the year and the weekday, then a fix for the first and the last
    week of the year. *)
Definition week_of_day (z : Z) : Z :=
  let doy := day_of_year z in
  let dow := weekday_of_day z in
  let woy := (doy - 1) - dow + 3 in
  if 0 <=? woy then
    let woy := woy `div` 7 + 1 in
    if (woy =? 53) && (31 - (civil_from_days z).2 + dow <? 3) then 1 else woy
  else if (-2 <? woy) || ((woy =? -2) && is_leapyear ((civil_from_days z).1.1 - 1))
  then 53
  else 52.

(** The week number as ISO 8601 defines it: a week runs from Monday to
    Sunday and belongs to the year of its Thursday; the weeks of a year
    are numbered from 1. *)
Definition iso_week_of_day (z : Z) : Z :=
  let thursday := z - weekday_of_day z + 3 in
  (day_of_year thursday - 1) `div` 7 + 1.

(** What it is for [hour], [day], [week], [month], [year] and [weekday] to
    be the fields of the timestamp [ms]: the hour is the hour of the day;
    year, month and day are a date of the calendar, the date of the day;
    the weekday counts the days since a Monday (1970-01-05 is day 4); and
    the week is the ISO week of the day. *)
Definition civil_fields (ms hour day week month year weekday : Z) : Prop :=
  let z := days_of_ms ms in
  0 ≤ hour < 24 ∧
  z * ms_per_day + hour * ms_per_hour ≤ ms
    < z * ms_per_day + (hour + 1) * ms_per_hour ∧
  1 ≤ month ≤ 12 ∧ 1 ≤ day ≤ days_in_month year month ∧
  days_from_civil year month day = z ∧
  0 ≤ weekday < 7 ∧ weekday = (z - 4) `mod` 7 ∧
  1 ≤ week ≤ 53 ∧ week = iso_week_of_day z.

(** The fields of [Series.dt] that the script reads. *)
Definition hour_of (ms : Z) : Z := (ms `mod` ms_per_day) `div` ms_per_hour.
Definition day_of (ms : Z) : Z := (civil_from_days (days_of_ms ms)).2.
Definition week_of (ms : Z) : Z := week_of_day (days_of_ms ms).
Definition month_of (ms : Z) : Z := (civil_from_days (days_of_ms ms)).1.2.
Definition year_of (ms : Z) : Z := (civil_from_days (days_of_ms ms)).1.1.
Definition weekday_of (ms : Z) : Z := weekday_of_day (days_of_ms ms).
End calendar.

(** The accessors of [Series.dt], cell by cell; a [NaT] has no fields.
    When the column holds a [NaT], pandas types the fields of the other
    rows as floats; the statements about the fields are about columns
    without [NaT], where they are integers. *)
Definition dt_field (f : Z → Z) (v : value) : value :=
  match v with
  | VTime ms => VInt (f ms)
  | _ => VNull
  end.

(** The seven cells of one row of [time_df], in the order of
    [column_labels]. *)
Definition time_row (t : value) : list value :=
  [t; dt_field hour_of t; dt_field day_of t; dt_field week_of t;
   dt_field month_of t; dt_field year_of t; dt_field weekday_of t].

(** ** Records and data frames *)

(** One parsed line of a file is a JSON object, a finite map from field
    names to cells.  A frame has the union of the fields of its records as
    columns and keeps, with every row, the label pandas gave it: the
    position of the record in the file, counted from 0.  A field that a
    record lacks reads as [VNull]. *)
Record DataFrame := {
  columns : gset string;
  rows : list (Z * gmap string value);
}.

Definition cell (r : gmap string value) (c : string) : value :=
  default VNull (r !! c).

(** What [pd.read_json(..., lines=True)] builds from the parsed lines. *)
Definition from_records (rs : list (gmap string value)) : DataFrame :=
  {| columns := ⋃ (dom <$> rs);
     rows := imap (λ i r, (Z.of_nat i, r)) rs |}.

(** [df[c]]: a labelled column. *)
Definition getitem (df : DataFrame) (c : string) : outcome (list (Z * value)) :=
  if decide (c ∈ columns df)
  then Ok ((λ ir, (ir.1, cell ir.2 c)) <$> rows df)
  else Raise (KeyError c).

(** [df[[c1, ..., cn]]]: the rows cut down to the listed columns, in the
    listed order. *)
Definition getitem_list (df : DataFrame) (cs : list string)
  : outcome (list (Z * list value)) :=
  match filter (λ c, c ∉ columns df) cs with
  | [] => Ok ((λ ir, (ir.1, cell ir.2 <$> cs)) <$> rows df)
  | c :: _ => Raise (KeyError c)
  end.

(** [.values[0].tolist()] *)
Definition first_values (t : list (Z * list value)) : outcome (list value) :=
  match t with
  | [] => Raise IndexError
  | r :: _ => Ok r.2
  end.

(** [s == v], element by element. *)
Definition series_eq (s : list (Z * value)) (v : value) : list (Z * bool) :=
  (λ ix, (ix.1, bool_decide (ix.2 = v))) <$> s.

(** [df[mask]] for a boolean mask over the rows of [df]: the rows keep
    their labels. *)
Definition select (df : DataFrame) (mask : list (Z * bool)) : DataFrame :=
  {| columns := columns df;
     rows := (filter (λ rm, rm.2.2 = true) (zip (rows df) mask)).*1 |}.

(** [df[c] = s] for a column [s] over the rows of [df]. *)
Definition setitem (df : DataFrame) (c : string) (s : list (Z * value)) : DataFrame :=
  {| columns := {[c]} ∪ columns df;
     rows := zip_with (λ ir ix, (ir.1, <[c := ix.2]> ir.2)) (rows df) s |}.

(** [row.c] for a row of [df.iterrows()]: the row is indexed by the columns
    of the frame. *)
Definition getattr (df : DataFrame) (row : gmap string value) (c : string)
  : outcome value :=
  if decide (c ∈ columns df) then Ok (cell row c) else Raise (AttributeError c).

(** The largest magnitude of a millisecond count that fits the nanosecond
    range of a pandas timestamp. *)
Definition timestamp_max_ms : Z := 9223372036854.

(** The 64-bit integer that pandas reads as [NaT]. *)
Definition iNaT : Z := (- 2 ^ 63)%Z.

(** [pd.to_datetime(_, unit='ms')] on one cell.  Integer cells are
    converted exactly when they fit, [iNaT] is read as [NaT], and the
    other integers are out of bounds.  pandas converts floats and numeric
    strings through float arithmetic, which this development does not
    model: such cells are rejected here, and the statements about
    timestamps below are about integer cells.  On a column of 64-bit
    integers the conversion of line 74 overwrites an [iNaT] cell of the
    frame, and the conversion of line 92 then reads another integer
    there; this is not modelled either, and the statements about start
    times are about columns of integers within the range. *)
Definition to_datetime_ms (v : value) : outcome value :=
  match v with
  | VNull => Ok VNull
  | VInt ms =>
      if bool_decide (ms = iNaT) then Ok VNull
      else if bool_decide (- timestamp_max_ms ≤ ms ≤ timestamp_max_ms)%Z
      then Ok (VTime ms) else Raise OutOfBoundsDatetime
  | VTime ms => Ok (VTime ms)
  | VFloat _ | VStr _ => Raise ValueError
  end.

Definition to_datetime (s : list (Z * value)) : outcome (list (Z * value)) :=
  omap (λ ix, obind (to_datetime_ms ix.2) (λ t, Ok (ix.1, t))) s.

(** ** The state and exception monad

    A computation runs on a state, ends normally or by raising, and leaves
    a state behind either way: what was done before an exception stays
    done. *)
Definition M (S A : Type) : Type := S → outcome A * S.

Definition ret {S A} (a : A) : M S A := λ s, (Ok a, s).

Definition bind {S A B} (m : M S A) (k : A → M S B) : M S B := λ s,
  match m s with
  | (Ok a, s') => k a s'
  | (Raise e, s') => (Raise e, s')
  end.

Definition lift {S A} (o : outcome A) : M S A := λ s, (o, s).

Notation "x <- e1 ;; e2" := (bind e1 (λ x, e2))
  (at level 100, e1 at next level, right associativity).
Notation "e1 ;; e2" := (bind e1 (λ _, e2))
  (at level 100, right associativity).

(** [for x in l: body(x)] *)
Fixpoint for_each {S A} (body : A → M S unit) (l : list A) : M S unit :=
  match l with
  | [] => ret ()
  | x :: l' => body x ;; for_each body l'
  end.

(** ** The store behind the cursor

    The statements are the constants that [etl.py] imports from
    [sql_queries]; their SQL text is not part of [etl.py], and neither is
    the database.  The store is therefore an interface: it may reject a
    statement ([None], the cursor raises), and it answers a statement with
    a result set, whose rows are the (song id, artist id) pairs that
    [song_select] asks for.  A commit is taken to go through. *)
Inductive statement :=
| song_table_insert
| artist_table_insert
| time_table_insert
| user_table_insert
| songplay_table_insert
| song_select.

#[global] Instance statement_eq_dec : EqDecision statement.
Proof. solve_decision. Defined.

Class Store (db : Type) := {
  db_execute : statement → list value → db → option (db * list (value * value));
  db_commit : db → db;
}.

(** A psycopg2 cursor: the store it talks to, the statements it executed so
    far with their parameters, and the rows not yet fetched. *)
Record cursor (db : Type) := Cursor {
  conn : db;
  executed : list (statement * list value);
  resultset : list (value * value);
}.
Arguments Cursor {db}.
Arguments conn {db}.
Arguments executed {db}.
Arguments resultset {db}.

(** The loader's view: the cursor, and what the loader itself did, in
    order: the lines it printed, the files it handed to the extractor, and
    its commits. *)
Inductive event :=
| Printed (line : string)
| Called (datafile : string)
| Committed.

Record session (db : Type) := Session {
  cur : cursor db;
  trace : list event;
}.
Arguments Session {db}.
Arguments cur {db}.
Arguments trace {db}.

(** A directory tree, as [os.walk] and [glob.glob] see it. *)
#[warnings="-register-all"]
Inductive fstree :=
| File
| Dir (entries : list (string * fstree)).

(** [os.path.join(a, b)] for a name [b] of a directory entry. *)
Definition ends_with (suffix s : string) : bool :=
  String.prefix (String.rev suffix) (String.rev s).

Definition path_join (a b : string) : string :=
  if bool_decide (a = "") || ends_with "/" a then a +:+ b else a +:+ "/" +:+ b.

(** [os.walk(top)], top down: every directory with the names of its
    entries, a directory before its subdirectories.  Errors of the
    directory scan are not raised ([onerror] is left at [None]), so a [top]
    that is not a directory yields nothing. *)
Fixpoint walk (top : string) (t : fstree) : list (string * list string) :=
  match t with
  | File => []
  | Dir entries =>
      (top, entries.*1)
        :: flat_map (λ e, walk (path_join top e.1) e.2) entries
  end.

(** [glob.glob(os.path.join(root, '*.json'))], for a [root] without
    wildcard characters: the entries of [root], files or directories,
    whose name ends in [.json], hidden names left out. *)
Definition glob_json (root : string) (names : list string) : list string :=
  path_join root <$>
    filter (λ n, ends_with ".json" n = true ∧ String.prefix "." n = false) names.

(** [enumerate(all_files, 1)] *)
Definition enumerate (all_files : list string) : list (nat * string) :=
  imap (λ i f, (S i, f)) all_files.

Section etl.
Context {db : Type} `{!Store db}.

(** The files, as the script reads them: [read_lines path] is the list of
    JSON objects that [pd.read_json(path, lines=True)] parses ([None] when
    it cannot), with the cells as pandas hands them over, after its own
    conversions (such as [dtype={'year': int}]; [pandas_lines] below gives
    them from the lines as they are written).  The paths are paths of
    files that can be opened: the error of opening a directory or a file
    without permission is not modelled.  [fs_lookup path] is the
    directory tree that [os.walk] finds at [path] ([None] when nothing is
    there), and [abspath] is [os.path.abspath]. *)
Variable read_lines : string → option (list (gmap string value)).
Variable fs_lookup : string → option fstree.
Variable abspath : string → string.

Definition read_json (filepath : string) : outcome DataFrame :=
  match read_lines filepath with
  | Some rs => Ok (from_records rs)
  | None => Raise ValueError
  end.

(** [cur.execute(q, args)]: the call is recorded, then the store answers. *)
Definition execute (q : statement) (args : list value) : M (cursor db) unit :=
  λ c,
    let log := executed c ++ [(q, args)] in
    match db_execute q args (conn c) with
    | Some (d, rs) => (Ok (), Cursor d log rs)
    | None => (Raise DatabaseError, Cursor (conn c) log [])
    end.

(** [cur.fetchone()] *)
Definition fetchone : M (cursor db) (option (value * value)) := λ c,
  match resultset c with
  | [] => (Ok None, c)
  | r :: rs => (Ok (Some r), Cursor (conn c) (executed c) rs)
  end.

Definition process_song_file (filepath : string) : M (cursor db) unit :=
  df <- lift (read_json filepath) ;;
  song_rows <- lift (getitem_list df
    ["song_id"; "title"; "artist_id"; "year"; "duration"]) ;;
  song_data <- lift (first_values song_rows) ;;
  execute song_table_insert song_data ;;
  artist_rows <- lift (getitem_list df
    ["artist_id"; "artist_name"; "artist_location"; "artist_latitude";
     "artist_longitude"]) ;;
  artist_data <- lift (first_values artist_rows) ;;
  execute artist_table_insert artist_data.

(** The body of the songplay loop, for the row labelled [index]. *)
Definition songplay_step (df : DataFrame) (index : Z) (row : gmap string value)
  : M (cursor db) unit :=
  song <- lift (getattr df row "song") ;;
  artist <- lift (getattr df row "artist") ;;
  length <- lift (getattr df row "length") ;;
  execute song_select [song; artist; length] ;;
  results <- fetchone ;;
  let ids := match results with
             | Some (songid, artistid) => (songid, artistid)
             | None => (VNull, VNull)
             end in
  ts <- lift (getattr df row "ts") ;;
  userId <- lift (getattr df row "userId") ;;
  level <- lift (getattr df row "level") ;;
  sessionId <- lift (getattr df row "sessionId") ;;
  location <- lift (getattr df row "location") ;;
  userAgent <- lift (getattr df row "userAgent") ;;
  execute songplay_table_insert
    [VInt (index + 1); ts; userId; level; ids.1; ids.2; sessionId; location;
     userAgent].

Definition process_log_file (filepath : string) : M (cursor db) unit :=
  df <- lift (read_json filepath) ;;
  page <- lift (getitem df "page") ;;
  let df := select df (series_eq page (VStr "NextSong")) in
  ts <- lift (getitem df "ts") ;;
  t <- lift (to_datetime ts) ;;
  let time_df := (λ it, (it.1, time_row it.2)) <$> t in
  for_each (λ irow, execute time_table_insert irow.2) time_df ;;
  user_df <- lift (getitem_list df
    ["userId"; "firstName"; "lastName"; "gender"; "level"]) ;;
  for_each (λ irow, execute user_table_insert irow.2) user_df ;;
  ts <- lift (getitem df "ts") ;;
  t <- lift (to_datetime ts) ;;
  let df := setitem df "ts" t in
  for_each (λ irow, songplay_step df irow.1 irow.2) (rows df).

(** The file list that [process_data] collects. *)
Definition discover (filepath : string) : list string :=
  match fs_lookup filepath with
  | Some t =>
      abspath <$> flat_map (λ rn, glob_json rn.1 rn.2) (walk filepath t)
  | None => []
  end.

Definition print (line : string) : M (session db) unit := λ w,
  (Ok (), Session (cur w) (trace w ++ [Printed line])).

(** [func(cur, datafile)] *)
Definition call (func : string → M (cursor db) unit) (datafile : string)
  : M (session db) unit := λ w,
  let (r, c) := func datafile (cur w) in
  (r, Session c (trace w ++ [Called datafile])).

(** [conn.commit()] *)
Definition commit : M (session db) unit := λ w,
  let c := cur w in
  (Ok (), Session (Cursor (db_commit (conn c)) (executed c) (resultset c))
                  (trace w ++ [Committed])).

Definition progress (i num_files : nat) : string :=
  pretty i +:+ "/" +:+ pretty num_files +:+ " files processed.".

(** The loop of [process_data] over [enumerate(all_files, 1)]. *)
Definition process_files (func : string → M (cursor db) unit)
    (num_files : nat) (numbered : list (nat * string)) : M (session db) unit :=
  for_each (λ idf,
    call func idf.2 ;;
    commit ;;
    print (progress idf.1 num_files)) numbered.

Definition process_data (filepath : string)
    (func : string → M (cursor db) unit) : M (session db) unit :=
  let all_files := discover filepath in
  let num_files := length all_files in
  print (pretty num_files +:+ " files found in " +:+ filepath) ;;
  process_files func num_files (enumerate all_files).
End etl.

(** ** Vocabulary for the statements below *)

Definition is_ok {A} (o : outcome A) : Prop :=
  match o with
  | Ok _ => True
  | Raise _ => False
  end.

#[global] Instance is_ok_dec {A} (o : outcome A) : Decision (is_ok o).
Proof. destruct o; simpl; apply _. Defined.

(** The fields of the two input formats. *)
Definition song_fields : list string :=
  ["song_id"; "title"; "artist_id"; "year"; "duration"].
Definition artist_fields : list string :=
  ["artist_id"; "artist_name"; "artist_location"; "artist_latitude";
   "artist_longitude"].
Definition user_fields : list string :=
  ["userId"; "firstName"; "lastName"; "gender"; "level"].
Definition log_fields : list string :=
  ["page"; "ts"; "userId"; "firstName"; "lastName"; "gender"; "level";
   "song"; "artist"; "length"; "sessionId"; "location"; "userAgent"].

(** Every record of the file carries every field of the format (a field
    may hold a null). *)
Definition has_fields (fields : list string) (rs : list (gmap string value)) : Prop :=
  Forall (λ r : gmap string value, Forall (λ c, is_Some (r !! c)) fields) rs.

#[global] Instance has_fields_dec fields rs : Decision (has_fields fields rs).
Proof. unfold has_fields. apply _. Defined.

(** The events of a file with their positions, counted from 0, and the
    ones the [NextSong] filter keeps. *)
Definition labelled (rs : list (gmap string value)) : list (Z * gmap string value) :=
  imap (λ i r, (Z.of_nat i, r)) rs.

Definition next_song (r : gmap string value) : Prop :=
  cell r "page" = VStr "NextSong".

#[global] Instance next_song_dec r : Decision (next_song r).
Proof. unfold next_song. apply _. Defined.

Definition retained (rs : list (gmap string value)) : list (Z * gmap string value) :=
  filter (λ ir, next_song ir.2) (labelled rs).

(** The timestamps of the retained events can be converted. *)
Definition convertible (rs : list (gmap string value)) : Prop :=
  Forall (λ ir : Z * gmap string value, is_ok (to_datetime_ms (cell ir.2 "ts")))
         (retained rs).

#[global] Instance convertible_dec rs : Decision (convertible rs).
Proof. unfold convertible. apply _. Defined.

(** The timestamps of the retained events are integers within the range
    of a pandas timestamp: the [ts] column holds no [NaT], and the fields
    of [Series.dt] are integers. *)
Definition within_range (v : value) : Prop :=
  match v with
  | VInt ms => (- timestamp_max_ms ≤ ms ≤ timestamp_max_ms)%Z
  | _ => False
  end.

#[global] Instance within_range_dec v : Decision (within_range v).
Proof. destruct v; simpl; apply _. Defined.

Definition integer_timestamps (rs : list (gmap string value)) : Prop :=
  Forall (λ ir : Z * gmap string value, within_range (cell ir.2 "ts"))
         (retained rs).

#[global] Instance integer_timestamps_dec rs : Decision (integer_timestamps rs).
Proof. unfold integer_timestamps. apply _. Defined.

(** The integer in the [ts] field of an event. *)
Definition ts_of (r : gmap string value) : Z :=
  match cell r "ts" with
  | VInt ms => ms
  | _ => 0
  end.

Definition start_time (r : gmap string value) : value :=
  match to_datetime_ms (cell r "ts") with
  | Ok t => t
  | Raise _ => VNull
  end.

Definition time_args (r : gmap string value) : list value :=
  time_row (start_time r).

Definition user_args (r : gmap string value) : list value :=
  cell r <$> user_fields.

Definition select_args (r : gmap string value) : list value :=
  [cell r "song"; cell r "artist"; cell r "length"].

Definition songplay_args (ir : Z * gmap string value) (ids : value * value)
  : list value :=
  [VInt (ir.1 + 1); start_time ir.2; cell ir.2 "userId"; cell ir.2 "level";
   ids.1; ids.2; cell ir.2 "sessionId"; cell ir.2 "location";
   cell ir.2 "userAgent"].

(** What [fetchone] and the test on its result make of a result set. *)
Definition first_or_null (rs : list (value * value)) : value * value :=
  match rs with
  | [] => (VNull, VNull)
  | r :: _ => r
  end.

(** The calls of one run of [process_log_file] over the rows [kept], when
    the lookups resolved to [idl]. *)
Definition log_calls (kept : list (Z * gmap string value))
    (idl : list (value * value)) : list (statement * list value) :=
  ((λ ir, (time_table_insert, time_args ir.2)) <$> kept)
  ++ ((λ ir, (user_table_insert, user_args ir.2)) <$> kept)
  ++ concat (zip_with (λ ir ids,
       [(song_select, select_args ir.2);
        (songplay_table_insert, songplay_args ir ids)]) kept idl).

(** The [i]-th parameter of a parameter list, or column of a stored row. *)
Definition column (row : list value) (i : nat) : value := default VNull (row !! i).

(** The parameter lists with which statement [q] was executed. *)
Definition params_of (q : statement) (calls : list (statement * list value))
  : list (list value) :=
  (filter (λ qa, qa.1 = q) calls).*2.

(** The calls a computation added to the cursor's record. *)
Definition issued {db A} (m : M (cursor db) A) (c : cursor db)
  : list (statement * list value) :=
  drop (length (executed c)) (executed (m c).2).

(** The statements of the two extractors. *)
Definition song_statements : list statement :=
  [song_table_insert; artist_table_insert].
Definition log_statements : list statement :=
  [time_table_insert; user_table_insert; song_select; songplay_table_insert].

(** The store accepts the statements [qs], whatever their parameters, on
    the states that satisfy [I], and stays among these states. *)
Definition accepts {db} `{!Store db} (qs : list statement) (I : db → Prop) : Prop :=
  ∀ q args d, q ∈ qs → I d → ∃ d' rs, db_execute q args d = Some (d', rs) ∧ I d'.

(** Every answer of the store to [song_select], on the states that satisfy
    [I], resolves to identifiers that [R] relates to the parameters. *)
Definition answers {db} `{!Store db} (I : db → Prop)
    (R : list value → value * value → Prop) : Prop :=
  ∀ d args d' rs, I d → db_execute song_select args d = Some (d', rs) →
    R args (first_or_null rs).

(** The columns that the songplay loop reads from a row. *)
Definition songplay_fields : list string :=
  ["song"; "artist"; "length"; "ts"; "userId"; "level"; "sessionId";
   "location"; "userAgent"].

(** The round of the loader for the [i]-th file. *)
Definition round (num_files : nat) (idf : nat * string) : list event :=
  [Called idf.2; Committed; Printed (progress idf.1 num_files)].

(** ** A store after the schema of the specification *)

(** Modelled from the spec: the query catalog [sql_queries] and the tables
    behind it are not part of [etl.py].  The store has the five tables of
    the schema; an insert appends its parameters as a row to its table,
    and, the conflict policy being left open, every row is accepted.
    [song_select] resolves a song and its artist: a row of [songs] and
    the row of [artists] with the same artist identifier, by exact match
    of the song's title, the artist's name and the song's duration; it
    returns their song and artist identifiers. *)
Record tables := Tables {
  songs : list (list value);
  artists : list (list value);
  time : list (list value);
  users : list (list value);
  songplays : list (list value);
}.

(** Modelled from the spec: the equality of the store, with which the
    lookup compares a stored column and a parameter.  Numbers are compared
    by their value, without tolerance: an integer equals the float of the
    same value, and the two zeros of binary64 are equal; as in PostgreSQL,
    a NaN equals a NaN.  Texts are equal when they are the same text.  A
    null equals nothing, not even a null, and a text equals no number. *)
Definition same_number (x y : number) : Prop :=
  match x, y with
  | Finite m1 e1, Finite m2 e2 =>
      (m1 * 2 ^ (e1 - Z.min e1 e2) = m2 * 2 ^ (e2 - Z.min e1 e2))%Z
  | Infinite a, Infinite b => a = b
  | NotANumber, NotANumber => True
  | _, _ => False
  end.

#[global] Instance same_number_dec x y : Decision (same_number x y).
Proof. destruct x, y; simpl; apply _. Defined.

(** Modelled from the spec: the number that a cell holds for the store,
    when it holds one. *)
Definition number_of (v : value) : option number :=
  match v with
  | VInt z => Some (Finite z 0)
  | VFloat bits => Some (binary64 bits)
  | _ => None
  end.

(** Modelled from the spec: the equality of the store on two cells. *)
Definition store_eq (a b : value) : Prop :=
  match a, b with
  | VStr s, VStr t => s = t
  | VTime x, VTime y => x = y
  | _, _ =>
      match number_of a, number_of b with
      | Some x, Some y => same_number x y
      | _, _ => False
      end
  end.

#[global] Instance store_eq_dec a b : Decision (store_eq a b).
Proof.
  unfold store_eq. destruct a, b; cbn [number_of]; apply _.
Defined.

(** Modelled from the spec: a stored song (song_id, title, artist_id, year,
    duration) and a stored artist (artist_id, name, ...) that match the
    three parameters: the song is by the artist, its title equals the
    first parameter, the artist's name the second, and its duration the
    third, each by the equality of the store. *)
Definition matches (song artist length : value) (sa : list value * list value)
  : Prop :=
  store_eq (column sa.1 2) (column sa.2 0) ∧ store_eq (column sa.1 1) song ∧
  store_eq (column sa.2 1) artist ∧ store_eq (column sa.1 4) length.

#[global] Instance matches_dec song artist length sa :
  Decision (matches song artist length sa).
Proof. unfold matches. apply _. Defined.

(** Modelled from the spec: the rows that [song_select] returns, the
    identifiers of the matching songs with their artists. *)
Definition song_select_rows (T : tables) (args : list value) : list (value * value) :=
  match args with
  | [song; artist; length] =>
      (λ sa : list value * list value, (column sa.1 0, column sa.2 0)) <$>
        filter (matches song artist length)
               (s ← songs T; (λ a, (s, a)) <$> artists T)
  | _ => []
  end.

(** Modelled from the spec: the statements of [sql_queries] on the tables:
    the five inserts and the lookup. *)
Definition catalog_execute (q : statement) (args : list value) (T : tables)
  : option (tables * list (value * value)) :=
  match q with
  | song_table_insert =>
      Some (Tables (songs T ++ [args]) (artists T) (time T) (users T) (songplays T), [])
  | artist_table_insert =>
      Some (Tables (songs T) (artists T ++ [args]) (time T) (users T) (songplays T), [])
  | time_table_insert =>
      Some (Tables (songs T) (artists T) (time T ++ [args]) (users T) (songplays T), [])
  | user_table_insert =>
      Some (Tables (songs T) (artists T) (time T) (users T ++ [args]) (songplays T), [])
  | songplay_table_insert =>
      Some (Tables (songs T) (artists T) (time T) (users T) (songplays T ++ [args]), [])
  | song_select => Some (T, song_select_rows T args)
  end.

#[global] Instance catalog : Store tables :=
  {| db_execute := catalog_execute; db_commit := λ T, T |}.

(** The identifiers of the stored songs and artists are not null: they are
    the primary keys of their tables. *)
Definition keyed (T : tables) : Prop :=
  Forall (λ s, column s 0 ≠ VNull) (songs T) ∧
  Forall (λ a, column a 0 ≠ VNull) (artists T).

(** A stored song and its artist that match an event on title, artist name
    and duration. *)
Definition stored_match (T : tables) (r : gmap string value) (s a : list value)
  : Prop :=
  s ∈ songs T ∧ a ∈ artists T ∧
  matches (cell r "song") (cell r "artist") (cell r "length") (s, a).

(** The identifiers, start times, song and artist identifiers bound to the
    songplay inserts among [calls]. *)
Definition songplay_ids (calls : list (statement * list value)) : list value :=
  (λ args, column args 0) <$> params_of songplay_table_insert calls.

Definition songplay_start_times (calls : list (statement * list value)) : list value :=
  (λ args, column args 1) <$> params_of songplay_table_insert calls.

Definition songplay_resolved (calls : list (statement * list value))
  : list (value * value) :=
  (λ args, (column args 4, column args 5)) <$> params_of songplay_table_insert calls.

Definition time_start_times (calls : list (statement * list value)) : list value :=
  (λ args, column args 0) <$> params_of time_table_insert calls.

(** The columns that [process_log_file] reads before its loops. *)
Definition filter_fields : list string := "page" :: "ts" :: user_fields.

(** ** A small installation, for the examples

    One song file, three log files (one of them not valid JSON, one without
    a [NextSong] event), an empty file, and a store that already holds the
    song of the song file. *)

Definition example_song : gmap string value :=
  list_to_map
    [("song_id", VStr "S1"); ("title", VStr "T"); ("artist_id", VStr "A1");
     ("year", VInt 2000); ("duration", VFloat 4641258483168051200);
     ("artist_name", VStr "Art"); ("artist_location", VStr "NY");
     ("artist_latitude", VFloat 4630924833085561242);
     ("artist_longitude", VFloat (-4588464332848758784))].

Definition example_event (page : string) (ts : Z) (level : string)
    (song artist length : value) : gmap string value :=
  list_to_map
    [("page", VStr page); ("ts", VInt ts); ("userId", VStr "8");
     ("firstName", VStr "Kaylee"); ("lastName", VStr "Summers");
     ("gender", VStr "F"); ("level", VStr level); ("song", song);
     ("artist", artist); ("length", length); ("sessionId", VInt 139);
     ("location", VStr "Phoenix-Mesa-Scottsdale, AZ");
     ("userAgent", VStr "Mozilla/5.0")].

Definition example_home : gmap string value :=
  example_event "Home" 1541207000000 "free" VNull VNull VNull.

Definition example_play : gmap string value :=
  example_event "NextSong" 1541207073796 "free"
    (VStr "T") (VStr "Art") (VFloat 4641258483168051200).

Definition example_other : gmap string value :=
  example_event "NextSong" 1541207150796 "paid"
    (VStr "Other") (VStr "Art") (VFloat 4641258483168051200).

Definition example_log : list (gmap string value) :=
  [example_home; example_play; example_other].

Definition example_quiet : list (gmap string value) := [example_home].

Definition example_files : gmap string (list (gmap string value)) :=
  list_to_map
    [("/data/song_data/A/s1.json", [example_song]);
     ("/data/song_data/none.json", []);
     ("/data/log_data/a.json", example_log);
     ("/data/log_data/c.json", example_quiet);
     ("/data/log_data/empty.json", []);
     ("/data/quiet/q.json", example_quiet)].

(** [/data/log_data/b.json] exists and is not valid JSON. *)
Definition example_read (path : string) : option (list (gmap string value)) :=
  example_files !! path.

Definition example_fs (path : string) : option fstree :=
  if decide (path = "data/song_data") then
    Some (Dir [("A", Dir [("s1.json", File)])])
  else if decide (path = "data/log_data") then
    Some (Dir [("a.json", File); ("b.json", File); ("c.json", File);
               ("readme.txt", File)])
  else if decide (path = "data/quiet") then Some (Dir [("q.json", File)])
  else None.

Definition example_abspath (path : string) : string := "/" +:+ path.

Definition example_tables : tables :=
  Tables [[VStr "S1"; VStr "T"; VStr "A1"; VInt 2000; VFloat 4641258483168051200]]
         [[VStr "A1"; VStr "Art"; VStr "NY"; VFloat 4630924833085561242;
           VFloat (-4588464332848758784)]]
         [] [] [].

Definition example_cursor : cursor tables := Cursor example_tables [] [].

Definition example_session : session tables := Session example_cursor [].

(** The loader's state after the first file of [data/log_data]. *)
Definition example_after_first : session tables :=
  (process_files (process_log_file example_read) 3 [(1%nat, "/data/log_data/a.json")]
     (Session example_cursor [Printed "3 files found in data/log_data"])).2.

(** A log file with a single event, a [NextSong]. *)
Definition example_single (path : string) : option (list (gmap string value)) :=
  if decide (path = "/data/log_data/single.json") then Some [example_play] else None.

(** Decidable side conditions on concrete inputs are settled by
    evaluation. *)
Ltac by_computation :=
  match goal with
  | |- ?P => apply (bool_decide_unpack P); vm_compute; exact I
  end.

(** ** More vocabulary: missing columns, discovery and the driver *)

(** Some record of the file carries the field [k]: the frame has the column. *)
Definition carried (k : string) (rs : list (gmap string value)) : Prop :=
  Exists (λ r : gmap string value, is_Some (r !! k)) rs.

#[global] Instance carried_dec k rs : Decision (carried k rs).
Proof. unfold carried. apply _. Defined.

(** The names that [glob] takes for the pattern [*.json]. *)
Definition json_name (n : string) : Prop :=
  ends_with ".json" n = true ∧ String.prefix "." n = false.

#[global] Instance json_name_dec n : Decision (json_name n).
Proof. unfold json_name. apply _. Defined.

(** [subdir top t dir entries]: walking the tree [t] from the path [top]
    comes by the directory [dir], whose entries are [entries]: [top]
    itself, or a directory below it, at any depth, hidden or not. *)
Inductive subdir : string → fstree → string → list (string * fstree) → Prop :=
| subdir_here top entries : subdir top (Dir entries) top entries
| subdir_below top entries n sub dir entries' :
    (n, sub) ∈ entries →
    subdir (path_join top n) sub dir entries' →
    subdir top (Dir entries) dir entries'.

(** What the driver released: [cur.close()] and [conn.close()]. *)
Inductive closing :=
| CursorClosed
| ConnectionClosed.

Section driver.
Context {db : Type} `{!Store db}.
Variable read_lines : string → option (list (gmap string value)).
Variable fs_lookup : string → option fstree.
Variable abspath : string → string.

(** The answer of [psycopg2.connect] to the connection string of the
    script: a store, or none when the connection cannot be made (an
    [OperationalError], which is a [DatabaseError]). *)
Variable connect : option db.

(** A step of the loader, inside the driver. *)
Definition in_session {A} (m : M (session db) A)
  : M (session db * list closing) A := λ s,
  let (r, w) := m s.1 in (r, (w, s.2)).

Definition close (what : closing) : M (session db * list closing) unit := λ s,
  (Ok (), (s.1, s.2 ++ [what])).

(** [main]: the outcome, and, once connected, the session as it ends and
    what was closed. *)
Definition main : outcome unit * option (session db * list closing) :=
  match connect with
  | None => (Raise DatabaseError, None)
  | Some d =>
      let c := Cursor d [] [] in
      let (r, s) :=
        (in_session (process_data fs_lookup abspath "data/song_data"
                       (process_song_file read_lines)) ;;
         in_session (process_data fs_lookup abspath "data/log_data"
                       (process_log_file read_lines)) ;;
         close CursorClosed ;;
         close ConnectionClosed) (Session c [], []) in
      (r, Some s)
  end.
End driver.

(** A computation on the cursor only adds calls to its record, and only
    calls of the statements [qs]. *)
Definition appends {db A} (qs : list statement) (m : M (cursor db) A) : Prop :=
  ∀ c, ∃ calls, executed (m c).2 = executed c ++ calls ∧
                Forall (λ qa : statement * list value, qa.1 ∈ qs) calls.

Section log_tail.
Context {db : Type} `{!Store db}.

(** [process_log_file] from line 74 on, on the filtered frame. *)
Definition log_tail (df : DataFrame) : M (cursor db) unit :=
  ts <- lift (getitem df "ts") ;;
  t <- lift (to_datetime ts) ;;
  let time_df := (λ it, (it.1, time_row it.2)) <$> t in
  for_each (λ irow, execute time_table_insert irow.2) time_df ;;
  user_df <- lift (getitem_list df
    ["userId"; "firstName"; "lastName"; "gender"; "level"]) ;;
  for_each (λ irow, execute user_table_insert irow.2) user_df ;;
  ts <- lift (getitem df "ts") ;;
  t <- lift (to_datetime ts) ;;
  let df := setitem df "ts" t in
  for_each (λ irow, songplay_step df irow.1 irow.2) (rows df).
End log_tail.

(** The frame of a log file after the [NextSong] filter. *)
Definition filtered (rs : list (gmap string value)) : DataFrame :=
  {| columns := columns (from_records rs); rows := retained rs |}.

(** An integer beyond the range of a pandas timestamp, other than the one
    that pandas reads as [NaT]. *)
Definition out_of_range (v : value) : Prop :=
  match v with
  | VInt ms => ms ≠ iNaT ∧ ¬ (- timestamp_max_ms ≤ ms ≤ timestamp_max_ms)%Z
  | _ => False
  end.

#[global] Instance out_of_range_dec v : Decision (out_of_range v).
Proof. destruct v; simpl; apply _. Defined.

(** [glob.has_magic]: the path holds a wildcard character, and [glob]
    reads it as a pattern. *)
Definition has_magic (s : string) : bool :=
  existsb (λ c, bool_decide (String c "" ∈ ["*"; "?"; "["]))
          (String.list_ascii_of_string s).

(** No directory below the top of the tree has a wildcard character in its
    name. *)
Fixpoint plain_dirs (t : fstree) : bool :=
  match t with
  | File => true
  | Dir entries =>
      forallb (λ e : string * fstree,
        match e.2 with
        | File => true
        | Dir _ => negb (has_magic e.1) && plain_dirs e.2
        end) entries
  end.

(** The first record of a file, as [process_song_file] reads it. *)
Definition first_record (read_lines : string → option (list (gmap string value)))
    (filepath : string) : gmap string value :=
  match read_lines filepath with
  | Some (r :: _) => r
  | _ => ∅
  end.

(** The two inserts of [process_song_file] for the record [r]. *)
Definition song_calls (r : gmap string value) : list (statement * list value) :=
  [(song_table_insert, cell r <$> song_fields);
   (artist_table_insert, cell r <$> artist_fields)].

(** A file in the song format: it can be parsed, and its records carry,
    between them, the fields of the song row and of the artist row. *)
Definition is_song_file (read_lines : string → option (list (gmap string value)))
    (filepath : string) : Prop :=
  match read_lines filepath with
  | Some rs => Forall (λ k, carried k rs) (song_fields ++ artist_fields)
  | None => False
  end.

#[global] Instance is_song_file_dec read_lines filepath :
  Decision (is_song_file read_lines filepath).
Proof. unfold is_song_file. destruct (read_lines filepath); apply _. Defined.

(** ** More examples: damaged inputs, and a store that takes no writes *)

(** A reader that knows a single file. *)
Definition example_file (path : string) (rs : list (gmap string value))
  : string → option (list (gmap string value)) :=
  λ p, if decide (p = path) then Some rs else None.

(** The example log without one of its fields. *)
Definition example_without (k : string) : list (gmap string value) :=
  delete k <$> example_log.

(** The example log with a second [NextSong] event whose timestamp is
    one millisecond beyond the range of a pandas timestamp. *)
Definition example_late : list (gmap string value) :=
  [example_home;
   example_play;
   example_event "NextSong" 9223372036855 "paid" (VStr "T") (VStr "Art") VNull].

(** A store that answers lookups with nothing and rejects every write. *)
Definition read_only : Store unit :=
  {| db_execute := λ q _ d,
       match q with song_select => Some (d, []) | _ => None end;
     db_commit := λ d, d |}.

(** ** How [pd.read_json] types the columns of a file

    [pd.read_json] builds a frame from the parsed lines and then retypes
    its columns, each as a whole ([_try_convert_data]): a column of
    objects is turned into floats when every value converts ([float] of a
    text, a null is a NaN), and a column of floats into 64-bit integers
    when every value is a whole number.  So a field that is written as
    text in the file is bound as a number when all its values in the file
    read as numbers, and a float as an integer when all are whole.  A
    column named in [dtype] is cast to the given type instead.

    The development follows this for the columns in the fragment below,
    and [typing_of] is [None] for the others: text that reads as a
    number other than a plain integer, integers mixed with nulls or
    floats, integers beyond 64 bits or beyond 2^53 in text. *)

Definition code (c : Ascii.ascii) : Z := Z.of_N (Ascii.N_of_ascii c).

Definition decimal_digit (c : Ascii.ascii) : bool := bool_decide (48 ≤ code c ≤ 57)%Z.

(** The ASCII characters that [float] strips as white space. *)
Definition float_space (c : Ascii.ascii) : bool :=
  bool_decide (code c ∈ [9; 10; 11; 12; 13; 28; 29; 30; 31; 32]%Z).

Definition to_lower (c : Ascii.ascii) : Ascii.ascii :=
  if bool_decide (65 ≤ code c ≤ 90)%Z
  then Ascii.ascii_of_N (Z.to_N (code c + 32)) else c.

Fixpoint lowercase (s : string) : string :=
  match s with
  | EmptyString => EmptyString
  | String c s' => String (to_lower c) (lowercase s')
  end.

(** A first character with which a text that [float] accepts may start:
    a digit, a sign, a point, white space, or a character beyond ASCII
    (which may be a digit or white space of Unicode); the letters of
    [inf], [infinity] and [nan] are looked at apart. *)
Definition may_start_float (c : Ascii.ascii) : bool :=
  decimal_digit c || float_space c ||
  bool_decide (code c ∈ [43; 45; 46]%Z) || bool_decide (128 ≤ code c)%Z.

(** A text that [float] rejects for sure: the empty text, and a text that
    starts with a character that no number starts with. *)
Definition not_float (s : string) : bool :=
  match s with
  | EmptyString => true
  | String c _ =>
      negb (may_start_float c) &&
      negb (bool_decide (lowercase (String.substring 0 3 s) ∈ ["inf"; "nan"]))
  end.

Fixpoint decimal (acc : Z) (s : string) : option Z :=
  match s with
  | EmptyString => Some acc
  | String c s' =>
      if decimal_digit c then decimal (10 * acc + (code c - 48)) s' else None
  end.

(** The integer that a text writes: decimal digits after an optional
    sign. *)
Definition int_text (s : string) : option Z :=
  match s with
  | EmptyString => None
  | String c s' =>
      if bool_decide (code c = 45%Z) then
        if bool_decide (s' = EmptyString) then None else Z.opp <$> decimal 0 s'
      else if bool_decide (code c = 43%Z) then
        if bool_decide (s' = EmptyString) then None else decimal 0 s'
      else decimal 0 s
  end.

(** Kinds of cells. *)
Definition text_cell (v : value) : Prop :=
  match v with VStr s => not_float s = true | _ => False end.

Definition str_cell (v : value) : Prop :=
  match v with VStr _ => True | _ => False end.

Definition int_text_cell (v : value) : Prop :=
  match v with
  | VStr s =>
      match int_text s with
      | Some n => (- 2 ^ 53 ≤ n ≤ 2 ^ 53)%Z
      | None => False
      end
  | _ => False
  end.

Definition int64_cell (v : value) : Prop :=
  match v with VInt z => (- 2 ^ 63 ≤ z < 2 ^ 63)%Z | _ => False end.

(** A cell that no line of JSON gives: a timestamp, or an integer beyond
    64 bits. *)
Definition foreign_cell (v : value) : Prop :=
  match v with
  | VTime _ => True
  | VInt z => ¬ (- 2 ^ 63 ≤ z < 2 ^ 63)%Z
  | _ => False
  end.

Definition float_or_null_cell (v : value) : Prop :=
  match v with VFloat _ | VNull => True | _ => False end.

(** A float that is a whole number of 64 bits. *)
Definition whole_float_cell (v : value) : Prop :=
  match v with
  | VFloat bits =>
      match integral (binary64 bits) with
      | Some z => (- 2 ^ 63 ≤ z < 2 ^ 63)%Z
      | None => False
      end
  | _ => False
  end.

(** A cell that keeps a column of floats from becoming integers: a null
    (a NaN in the column), an infinity or a NaN, or a float with a
    fractional part. *)
Definition fractional_cell (v : value) : Prop :=
  match v with
  | VNull => True
  | VFloat bits => integral (binary64 bits) = None
  | _ => False
  end.

#[global] Instance text_cell_dec v : Decision (text_cell v).
Proof. destruct v; simpl; apply _. Defined.
#[global] Instance str_cell_dec v : Decision (str_cell v).
Proof. destruct v; simpl; apply _. Defined.
#[global] Instance int_text_cell_dec v : Decision (int_text_cell v).
Proof. destruct v as [| | |s|]; simpl; try apply _. destruct (int_text s); apply _. Defined.
#[global] Instance int64_cell_dec v : Decision (int64_cell v).
Proof. destruct v; simpl; apply _. Defined.
#[global] Instance foreign_cell_dec v : Decision (foreign_cell v).
Proof. destruct v; simpl; apply _. Defined.
#[global] Instance float_or_null_cell_dec v : Decision (float_or_null_cell v).
Proof. destruct v; simpl; apply _. Defined.
#[global] Instance whole_float_cell_dec v : Decision (whole_float_cell v).
Proof.
  destruct v as [| |bits| |]; simpl; try apply _.
  destruct (integral (binary64 bits)); apply _.
Defined.
#[global] Instance fractional_cell_dec v : Decision (fractional_cell v).
Proof. destruct v; simpl; apply _. Defined.

(** How a column comes out: as it was read, or as integers. *)
Inductive typing := Verbatim | Integers.

(** The inference of [_try_convert_data] on the cells of a column. *)
Definition infer (cells : list value) : option typing :=
  if decide (Exists foreign_cell cells) then None
  else if decide (Exists text_cell cells) then Some Verbatim
  else if decide (Exists str_cell cells) then
    if decide (Forall int_text_cell cells) then Some Integers else None
  else if decide (Forall int64_cell cells) then Some Verbatim
  else if decide (Forall float_or_null_cell cells) then
    if decide (Exists fractional_cell cells) then Some Verbatim
    else if decide (Forall whole_float_cell cells) then Some Integers
    else None
  else None.

(** The cast of [dtype={name: int}] on the cells of a column. *)
Definition cast_int (cells : list value) : option typing :=
  if decide (Forall int64_cell cells) then Some Verbatim
  else if decide (Forall whole_float_cell cells) then Some Integers
  else None.

(** The cell of a column that comes out as integers. *)
Definition to_integer (v : value) : value :=
  match v with
  | VStr s => from_option VInt v (int_text s)
  | VFloat bits => from_option VInt v (integral (binary64 bits))
  | _ => v
  end.

Definition column_cells (rs : list (gmap string value)) (k : string) : list value :=
  (λ r, default VNull (r !! k)) <$> rs.

(** The typing of column [k] of the file [rs], when the columns [forced]
    are cast to integers. *)
Definition typing_of (forced : list string) (rs : list (gmap string value))
    (k : string) : option typing :=
  if decide (k ∈ forced) then cast_int (column_cells rs k)
  else infer (column_cells rs k).

(** The value [v] of field [k], as the frame of the file [rs] has it. *)
Definition typed (forced : list string) (rs : list (gmap string value))
    (k : string) (v : value) : value :=
  match typing_of forced rs k with
  | Some Integers => to_integer v
  | _ => v
  end.

(** Some column among [fields] holds a text that is no number: a frame
    cut down to [fields] has then a column of objects, and its rows keep
    the types of their cells (a row of numbers only is a row of floats as
    soon as one of them is a float). *)
Definition some_text (rs : list (gmap string value)) (fields : list string) : Prop :=
  Exists (λ k, Exists text_cell (column_cells rs k)) fields.

#[global] Instance some_text_dec rs fields : Decision (some_text rs fields).
Proof. unfold some_text. apply _. Defined.

(** The records of a file as the frame has them, and the reading of a
    file: the parsed lines, retyped. *)
Definition retyped (forced : list string) (rs : list (gmap string value))
  : list (gmap string value) :=
  (λ r : gmap string value, map_imap (λ k v, Some (typed forced rs k v)) r) <$> rs.

Definition pandas_lines (forced : list string)
    (read_file : string → option (list (gmap string value)))
  : string → option (list (gmap string value)) :=
  λ filepath, retyped forced <$> read_file filepath.

(** A song file that writes its title in digits, and a reader of the
    example files as they are written. *)
Definition example_numbered : gmap string value :=
  <["title" := VStr "1999"]> example_song.

Definition example_written (path : string) : option (list (gmap string value)) :=
  if decide (path = "/data/song_data/P/1999.json") then Some [example_numbered]
  else example_files !! path.
(** ** Data frames: the operations meet their descriptions *)

Lemma rows_select_eq df c v :
  rows (select df (series_eq ((λ ir, (ir.1, cell ir.2 c)) <$> rows df) v))
  = filter (λ ir, cell ir.2 c = v) (rows df).
Proof.
  unfold select, series_eq; simpl.
  induction (rows df) as [|ir l IH]; [done|].
  csimpl. rewrite !filter_cons. simpl.
  destruct (decide (cell ir.2 c = v)) as [Heq|Hne].
  - rewrite bool_decide_true, decide_True by done. csimpl. by f_equal.
  - by rewrite bool_decide_false, decide_False by done.
Qed.

Lemma to_datetime_column (l : list (Z * gmap string value)) :
  Forall (λ ir, is_ok (to_datetime_ms (cell ir.2 "ts"))) l →
  to_datetime ((λ ir, (ir.1, cell ir.2 "ts")) <$> l)
  = Ok ((λ ir, (ir.1, start_time ir.2)) <$> l).
Proof.
  unfold to_datetime. induction 1 as [|ir l Hok _ IH]; [done|].
  rewrite !fmap_cons. cbn [omap]. rewrite IH. cbn [fst snd]. unfold start_time.
  destruct (to_datetime_ms (cell ir.2 "ts")); [done | destruct Hok].
Qed.

Lemma getitem_ok df c :
  c ∈ columns df → getitem df c = Ok ((λ ir, (ir.1, cell ir.2 c)) <$> rows df).
Proof. intros Hc. unfold getitem. by rewrite decide_True. Qed.

Lemma getattr_ok df row c :
  c ∈ columns df → getattr df row c = Ok (cell row c).
Proof. intros Hc. unfold getattr. by rewrite decide_True. Qed.

Lemma getitem_list_ok df cs :
  Forall (λ c, c ∈ columns df) cs →
  getitem_list df cs = Ok ((λ ir, (ir.1, cell ir.2 <$> cs)) <$> rows df).
Proof.
  intros Hcs. unfold getitem_list.
  replace (filter (λ c, c ∉ columns df) cs) with (@nil string); [done|].
  symmetry. induction Hcs as [|c cs Hc _ IH]; [done|].
  rewrite filter_cons, decide_False by (intros Hn; by apply Hn). done.
Qed.

Lemma columns_from_records fields r rs :
  has_fields fields (r :: rs) →
  Forall (λ c, c ∈ columns (from_records (r :: rs))) fields.
Proof.
  intros Hf. apply Forall_cons in Hf as [Hr _].
  eapply Forall_impl; [exact Hr|].
  intros c Hc. simpl. apply elem_of_union. left. by apply elem_of_dom.
Qed.

Lemma columns_empty c : c ∉ columns (from_records []).
Proof. simpl. apply not_elem_of_empty. Qed.

Lemma retained_label rs ir :
  ir ∈ retained rs → (0 ≤ ir.1)%Z ∧ rs !! Z.to_nat ir.1 = Some ir.2.
Proof.
  unfold retained, labelled. intros Hin.
  apply list_elem_of_filter in Hin as [_ Hin].
  apply elem_of_lookup_imap in Hin as (i & r & -> & Hr).
  simpl. split; [lia|]. by rewrite Nat2Z.id.
Qed.

(** ** The calendar: the fields are those of the civil date *)

Section calendar_facts.
Local Open Scope Z_scope.

Lemma is_leapyear_spec y :
  is_leapyear y = true ↔ y `mod` 4 = 0 ∧ (y `mod` 100 ≠ 0 ∨ y `mod` 400 = 0).
Proof.
  unfold is_leapyear.
  rewrite andb_true_iff, orb_true_iff, negb_true_iff, !Z.eqb_eq, Z.eqb_neq.
  done.
Qed.

(** A year is a leap year, with the arithmetic of it at hand, or it is
    not. *)
Lemma is_leapyear_cases y :
  (is_leapyear y = true ∧ y `mod` 4 = 0 ∧ (y `mod` 100 ≠ 0 ∨ y `mod` 400 = 0)) ∨
  (is_leapyear y = false ∧ ¬ (y `mod` 4 = 0 ∧ (y `mod` 100 ≠ 0 ∨ y `mod` 400 = 0))).
Proof.
  pose proof (is_leapyear_spec y) as Hleap.
  destruct (is_leapyear y); [left|right]; split; try done.
  - by apply Hleap.
  - intros X. apply Hleap in X. discriminate.
Qed.

(** The date of a day number is a date of the calendar, and the day number
    of that date is the day number itself. *)
Lemma civil_from_days_spec z y m d :
  civil_from_days z = (y, m, d) →
  1 ≤ m ≤ 12 ∧ 1 ≤ d ≤ days_in_month y m ∧ days_from_civil y m d = z.
Proof.
  unfold civil_from_days. intros Heq.
  set (z' := z + 719468) in *.
  set (era := z' `div` 146097) in *.
  set (doe := z' `mod` 146097) in *.
  set (yoe := (doe - doe `div` 1460 + doe `div` 36524 - doe `div` 146096)
                `div` 365) in *.
  set (doy := doe - (365 * yoe + yoe `div` 4 - yoe `div` 100)) in *.
  set (mp := (5 * doy + 2) `div` 153) in *.
  assert (Hdoe : 0 ≤ doe < 146097) by (apply Z.mod_pos_bound; lia).
  assert (Hz : z' = 146097 * era + doe) by (apply Z.div_mod; lia).
  clearbody era doe.
  assert (Hyoe : 0 ≤ yoe < 400 ∧ 0 ≤ doy < 366).
  { subst yoe doy. clear -Hdoe. Z.div_mod_to_equations. lia. }
  assert (Hmp : 0 ≤ mp < 12).
  { subst mp. clear -Hyoe. Z.div_mod_to_equations. lia. }
  assert (mp = 0 ∨ mp = 1 ∨ mp = 2 ∨ mp = 3 ∨ mp = 4 ∨ mp = 5 ∨ mp = 6 ∨ mp = 7
          ∨ mp = 8 ∨ mp = 9 ∨ mp = 10 ∨ mp = 11) as Hcases by lia.
  injection Heq as Hy Hm Hd.
  unfold days_from_civil, days_before_year, days_before_month, days_in_month.
  destruct (is_leapyear_cases y) as [[-> Hleap]|[-> Hleap]].
  all: destruct Hcases as [H|[H|[H|[H|[H|[H|[H|[H|[H|[H|[H|H]]]]]]]]]]];
    rewrite H in Hy, Hm, Hd; simpl in Hy, Hm; subst m; simpl;
    unfold mp, doy, yoe, z' in *; clear mp doy yoe z'.
  all: Z.div_mod_to_equations; lia.
Qed.

Lemma year_start_eq y : year_start y = days_before_year y - 719162.
Proof. unfold year_start, days_from_civil, days_before_month. simpl. lia. Qed.

Lemma year_length y :
  year_start (y + 1) - year_start y = if is_leapyear y then 366 else 365.
Proof.
  rewrite !year_start_eq. unfold days_before_year.
  destruct (is_leapyear_cases y) as [[-> Hleap]|[-> Hleap]];
    replace (y + 1 - 1) with y by lia; Z.div_mod_to_equations; lia.
Qed.

Lemma year_start_mono a b : a ≤ b → year_start a ≤ year_start b.
Proof.
  intros Hab. rewrite !year_start_eq. unfold days_before_year.
  Z.div_mod_to_equations. lia.
Qed.

(** A date of the calendar lies in its year; and from 2 December on, the
    day of the month is counted back from the end of the year. *)
Lemma date_interval y m d z :
  1 ≤ m ≤ 12 → 1 ≤ d ≤ days_in_month y m → days_from_civil y m d = z →
  year_start y ≤ z < year_start (y + 1) ∧
  (year_start y + 335 ≤ z → d = z - year_start (y + 1) + 32).
Proof.
  intros Hm Hd Hz.
  pose proof (year_length y) as Hlen.
  pose proof (year_start_eq y) as Hys.
  set (ys := year_start y) in *. set (ys1 := year_start (y + 1)) in *.
  clearbody ys ys1.
  unfold days_from_civil, days_before_month, days_in_month in *.
  assert (m = 1 ∨ m = 2 ∨ m = 3 ∨ m = 4 ∨ m = 5 ∨ m = 6 ∨ m = 7 ∨ m = 8
          ∨ m = 9 ∨ m = 10 ∨ m = 11 ∨ m = 12) as Hcases by lia.
  destruct Hcases as [H|[H|[H|[H|[H|[H|[H|[H|[H|[H|[H|H]]]]]]]]]]];
    subst m; simpl in *; destruct (is_leapyear y); lia.
Qed.

Lemma year_interval z y m d :
  civil_from_days z = (y, m, d) →
  year_start y ≤ z < year_start (y + 1) ∧
  (year_start y + 335 ≤ z → d = z - year_start (y + 1) + 32).
Proof.
  intros Hc. apply civil_from_days_spec in Hc as (Hm & Hd & Hz).
  by eapply date_interval.
Qed.

Lemma year_of_interval z y :
  year_start y ≤ z < year_start (y + 1) → (civil_from_days z).1.1 = y.
Proof.
  intros Hz. destruct (civil_from_days z) as [[y' m] d] eqn:Hc. simpl.
  apply year_interval in Hc as [Hy' _].
  destruct (Z.lt_trichotomy y' y) as [Hlt|[Heq|Hgt]]; [|done|].
  - pose proof (year_start_mono (y' + 1) y). lia.
  - pose proof (year_start_mono (y + 1) y'). lia.
Qed.

(** The week number that pandas computes is the ISO 8601 week number. *)
Lemma week_of_day_iso z :
  week_of_day z = iso_week_of_day z ∧ 1 ≤ week_of_day z ≤ 53.
Proof.
  unfold week_of_day, iso_week_of_day, weekday_of_day.
  destruct (civil_from_days z) as [[y m] d] eqn:Hc.
  assert (Hdoy : day_of_year z = z - year_start y + 1).
  { unfold day_of_year. by rewrite Hc. }
  cbn [fst snd]. rewrite Hdoy. clear Hdoy.
  apply year_interval in Hc as [Hz Hdec].
  pose proof (year_length y) as Hlen.
  pose proof (year_length (y - 1)) as Hprev.
  pose proof (year_length (y + 1)) as Hnext.
  replace (y - 1 + 1) with y in Hprev by lia.
  set (dow := (z + 3) `mod` 7) in *.
  assert (Hdow : 0 ≤ dow < 7) by (apply Z.mod_pos_bound; lia).
  set (th := z - dow + 3).
  assert (Hth : day_of_year th =
                if decide (th < year_start y) then th - year_start (y - 1) + 1
                else if decide (th < year_start (y + 1)) then th - year_start y + 1
                else th - year_start (y + 1) + 1).
  { unfold day_of_year. repeat case_decide.
    - rewrite (year_of_interval th (y - 1)); [done|].
      replace (y - 1 + 1) with y by lia.
      destruct (is_leapyear (y - 1)); lia.
    - rewrite (year_of_interval th y); [done|lia].
    - rewrite (year_of_interval th (y + 1)); [done|].
      destruct (is_leapyear (y + 1)); destruct (is_leapyear y); lia. }
  rewrite Hth. clear Hth.
  destruct (is_leapyear y), (is_leapyear (y - 1)); clear Hnext;
    repeat case_decide;
    repeat (match goal with
            | |- context [?a <=? ?b] => destruct (Z.leb_spec a b)
            | |- context [?a <? ?b] => destruct (Z.ltb_spec a b)
            | |- context [?a =? ?b] => destruct (Z.eqb_spec a b)
            end; cbn [andb orb]);
    subst th; Z.div_mod_to_equations; lia.
Qed.

(** A day number has one date only. *)
Lemma date_unique y m d y' m' d' :
  1 ≤ m ≤ 12 → 1 ≤ d ≤ days_in_month y m →
  1 ≤ m' ≤ 12 → 1 ≤ d' ≤ days_in_month y' m' →
  days_from_civil y m d = days_from_civil y' m' d' →
  y = y' ∧ m = m' ∧ d = d'.
Proof.
  intros Hm Hd Hm' Hd' Heq.
  destruct (date_interval y m d _ Hm Hd eq_refl) as [Hy _].
  destruct (date_interval y' m' d' _ Hm' Hd' eq_refl) as [Hy' _].
  assert (y = y') as <-.
  { destruct (Z.lt_trichotomy y y') as [Hlt|[Hyy|Hgt]]; [|done|].
    - pose proof (year_start_mono (y + 1) y'). lia.
    - pose proof (year_start_mono (y' + 1) y). lia. }
  split; [done|].
  unfold days_from_civil, days_before_month, days_in_month in *.
  assert (m = 1 ∨ m = 2 ∨ m = 3 ∨ m = 4 ∨ m = 5 ∨ m = 6 ∨ m = 7 ∨ m = 8
          ∨ m = 9 ∨ m = 10 ∨ m = 11 ∨ m = 12) as Hcases by lia.
  assert (m' = 1 ∨ m' = 2 ∨ m' = 3 ∨ m' = 4 ∨ m' = 5 ∨ m' = 6 ∨ m' = 7 ∨ m' = 8
          ∨ m' = 9 ∨ m' = 10 ∨ m' = 11 ∨ m' = 12) as Hcases' by lia.
  clear Hy Hy' Hm Hm'.
  destruct Hcases as [H|[H|[H|[H|[H|[H|[H|[H|[H|[H|[H|H]]]]]]]]]]];
    destruct Hcases' as [H'|[H'|[H'|[H'|[H'|[H'|[H'|[H'|[H'|[H'|[H'|H']]]]]]]]]]];
    subst m m'; simpl in *; destruct (is_leapyear y); lia.
Qed.

(** The fields that the script reads are the fields of the timestamp. *)
Lemma calendar_fields ms :
  civil_fields ms (hour_of ms) (day_of ms) (week_of ms) (month_of ms)
               (year_of ms) (weekday_of ms).
Proof.
  unfold civil_fields, hour_of, month_of, day_of, year_of, weekday_of, week_of.
  set (z := days_of_ms ms).
  destruct (civil_from_days z) as [[y m] d] eqn:Hc. cbn [fst snd].
  apply civil_from_days_spec in Hc as (Hm & Hd & Hz).
  destruct (week_of_day_iso z) as [Hiso Hweek].
  split_and!; try done; try lia;
    unfold z, days_of_ms, weekday_of_day, ms_per_day, ms_per_hour;
    Z.div_mod_to_equations; lia.
Qed.

(** And they are the only ones. *)
Lemma calendar_fields_unique ms hour day week month year weekday :
  civil_fields ms hour day week month year weekday →
  hour = hour_of ms ∧ day = day_of ms ∧ week = week_of ms ∧
  month = month_of ms ∧ year = year_of ms ∧ weekday = weekday_of ms.
Proof.
  intros Hf. pose proof (calendar_fields ms) as Hg.
  unfold civil_fields in Hf, Hg. cbn zeta in Hf, Hg.
  destruct Hf as (Hh & Hms & Hm & Hd & Hz & _ & Hwd & _ & Hw).
  destruct Hg as (Hh' & Hms' & Hm' & Hd' & Hz' & _ & Hwd' & _ & Hw').
  destruct (date_unique year month day (year_of ms) (month_of ms) (day_of ms))
    as (-> & -> & ->); [done..|by rewrite Hz, Hz'|].
  split_and!; try done; try congruence.
  unfold ms_per_day, ms_per_hour in *. nia.
Qed.
End calendar_facts.

(** ** The cursor: what a run executes *)

Section runs.
Context {db : Type} `{!Store db}.
Variable read_lines : string → option (list (gmap string value)).

Implicit Types (I : db → Prop) (c : cursor db).

Lemma bind_lift_ok {S A B} (a : A) (k : A → M S B) :
  bind (lift (Ok a)) k = k a.
Proof. reflexivity. Qed.

Lemma bind_run_ok {S A B} (m : M S A) (k : A → M S B) s a s' :
  m s = (Ok a, s') → bind m k s = k a s'.
Proof. intros Hm. unfold bind. by rewrite Hm. Qed.

Lemma for_each_fmap {S A B} (body : B → M S unit) (g : A → B) (l : list A) :
  for_each body (g <$> l) = for_each (λ x, body (g x)) l.
Proof. induction l as [|x l IH]; [done|]. csimpl. by rewrite IH. Qed.

Lemma execute_accepted qs I q args c :
  accepts qs I → q ∈ qs → I (conn c) →
  ∃ c', execute q args c = (Ok (), c') ∧ I (conn c') ∧
        executed c' = executed c ++ [(q, args)].
Proof.
  intros Hacc Hq HI.
  destruct (Hacc q args (conn c) Hq HI) as (d' & rs & Hex & HI').
  unfold execute. rewrite Hex. eauto.
Qed.

Lemma for_each_execute {A} qs I q (f : A → list value) (l : list A) c :
  accepts qs I → q ∈ qs → I (conn c) →
  ∃ c', for_each (λ x, execute q (f x)) l c = (Ok (), c') ∧ I (conn c') ∧
        executed c' = executed c ++ ((λ x, (q, f x)) <$> l).
Proof.
  intros Hacc Hq. revert c. induction l as [|x l IH]; intros c HI.
  - exists c. simpl. by rewrite app_nil_r.
  - destruct (execute_accepted qs I q (f x) c Hacc Hq HI)
      as (c1 & Hex & HI1 & Hlog).
    destruct (IH c1 HI1) as (c' & Hrun & HI' & Hlog').
    exists c'. cbn [for_each]. rewrite (bind_run_ok _ _ _ _ _ Hex), Hrun.
    split_and!; [done..|]. by rewrite Hlog', Hlog, <-app_assoc.
Qed.

Lemma songplay_step_run I R df (ir : Z * gmap string value) c :
  accepts log_statements I → answers I R → I (conn c) →
  Forall (λ k, k ∈ columns df) songplay_fields →
  ∃ c' ids,
    songplay_step df ir.1 (<["ts" := start_time ir.2]> ir.2) c = (Ok (), c') ∧
    I (conn c') ∧ R (select_args ir.2) ids ∧
    executed c' = executed c ++
      [(song_select, select_args ir.2);
       (songplay_table_insert, songplay_args ir ids)].
Proof.
  intros Hacc Hans HI Hcols.
  unfold songplay_fields in Hcols. rewrite !Forall_cons in Hcols.
  destruct Hcols as (?&?&?&?&?&?&?&?&?&_).
  unfold songplay_step. rewrite !getattr_ok by done.
  assert (Hts : ∀ t (r : gmap string value), cell (<["ts" := t]> r) "ts" = t).
  { intros. unfold cell. by rewrite lookup_insert_eq. }
  assert (Hne : ∀ t (r : gmap string value) k, k ≠ "ts" →
            cell (<["ts" := t]> r) k = cell r k).
  { intros. unfold cell. by rewrite lookup_insert_ne. }
  rewrite Hts, !Hne by done.
  destruct (Hacc song_select (select_args ir.2) (conn c)) as (d1 & rs & Hex1 & HI1);
    [unfold log_statements; set_unfold; tauto|done|].
  pose proof (Hans _ _ _ _ HI Hex1) as HR.
  destruct (Hacc songplay_table_insert
              (songplay_args ir (first_or_null rs)) d1)
    as (d2 & rs2 & Hex2 & HI2);
    [unfold log_statements; set_unfold; tauto|done|].
  exists (Cursor d2
            ((executed c ++ [(song_select, select_args ir.2)]) ++
             [(songplay_table_insert, songplay_args ir (first_or_null rs))])
            rs2),
         (first_or_null rs).
  split_and!; [|done..|by rewrite <-app_assoc].
  unfold bind, lift, execute, fetchone. fold (select_args ir.2). rewrite Hex1.
  cbn [conn executed resultset].
  destruct rs as [|[s a] rs];
    cbn [conn executed resultset first_or_null fst snd] in *;
    unfold songplay_args in Hex2; cbn [fst snd] in Hex2; by rewrite Hex2.
Qed.

Lemma songplay_loop I R df (l : list (Z * gmap string value)) c :
  accepts log_statements I → answers I R → I (conn c) →
  Forall (λ k, k ∈ columns df) songplay_fields →
  ∃ c' idl,
    for_each (λ irow, songplay_step df irow.1 irow.2)
      ((λ ir, (ir.1, <["ts" := start_time ir.2]> ir.2)) <$> l) c = (Ok (), c') ∧
    I (conn c') ∧ Forall2 (λ ir ids, R (select_args ir.2) ids) l idl ∧
    executed c' = executed c ++ concat (zip_with (λ ir ids,
      [(song_select, select_args ir.2);
       (songplay_table_insert, songplay_args ir ids)]) l idl).
Proof.
  intros Hacc Hans HI Hcols. revert c HI.
  induction l as [|ir l IH]; intros c HI.
  - exists c, []. simpl. by rewrite app_nil_r.
  - destruct (songplay_step_run I R df ir c Hacc Hans HI Hcols)
      as (c1 & ids & Hstep & HI1 & HR & Hlog).
    destruct (IH c1 HI1) as (c' & idl & Hrun & HI' & HRs & Hlog').
    exists c', (ids :: idl).
    rewrite fmap_cons. cbn [for_each fst snd].
    rewrite (bind_run_ok _ _ _ _ _ Hstep), Hrun.
    split_and!; [done|done|by constructor|].
    rewrite Hlog', Hlog. cbn [zip_with concat]. by rewrite <-app_assoc.
Qed.

Lemma setitem_rows df k (f : gmap string value → value) :
  rows (setitem df k ((λ ir, (ir.1, f ir.2)) <$> rows df))
  = (λ ir, (ir.1, <[k := f ir.2]> ir.2)) <$> rows df.
Proof.
  unfold setitem; simpl. induction (rows df) as [|ir l IH]; [done|].
  csimpl. by rewrite IH.
Qed.

Lemma process_log_file_events I R filepath r rs c :
  read_lines filepath = Some (r :: rs) →
  has_fields log_fields (r :: rs) → convertible (r :: rs) →
  accepts log_statements I → answers I R → I (conn c) →
  ∃ c' idl,
    process_log_file read_lines filepath c = (Ok (), c') ∧
    I (conn c') ∧
    Forall2 (λ ir ids, R (select_args ir.2) ids) (retained (r :: rs)) idl ∧
    executed c' = executed c ++ log_calls (retained (r :: rs)) idl.
Proof.
  intros Hread Hfields Hconv Hacc Hans HI.
  unfold process_log_file, read_json. rewrite Hread.
  pose proof (columns_from_records _ _ _ Hfields) as Hcols.
  set (df := from_records (r :: rs)) in *.
  unfold log_fields in Hcols. rewrite !Forall_cons in Hcols.
  destruct Hcols as (?&?&?&?&?&?&?&?&?&?&?&?&?&_).
  rewrite bind_lift_ok, getitem_ok, bind_lift_ok by done.
  set (df1 := select df _).
  assert (Hrows : rows df1 = retained (r :: rs)) by apply rows_select_eq.
  assert (Hcols1 : columns df1 = columns df) by done.
  clearbody df1.
  rewrite !getitem_ok by (by rewrite Hcols1).
  rewrite (getitem_list_ok df1) by (rewrite Hcols1; by repeat constructor).
  rewrite bind_lift_ok. unfold convertible in Hconv. rewrite <-Hrows in Hconv.
  rewrite to_datetime_column, bind_lift_ok by done.
  rewrite <-list_fmap_compose.
  destruct (for_each_execute log_statements I time_table_insert
              (λ ir : Z * gmap string value, time_args ir.2) (rows df1) c)
    as (c1 & Hrun1 & HI1 & Hlog1);
    [done|unfold log_statements; set_unfold; tauto|done|].
  rewrite for_each_fmap. erewrite bind_run_ok; [|exact Hrun1].
  rewrite bind_lift_ok, for_each_fmap.
  destruct (for_each_execute log_statements I user_table_insert
              (λ ir : Z * gmap string value, user_args ir.2) (rows df1) c1)
    as (c2 & Hrun2 & HI2 & Hlog2);
    [done|unfold log_statements; set_unfold; tauto|done|].
  erewrite bind_run_ok; [|exact Hrun2].
  rewrite bind_lift_ok, to_datetime_column, bind_lift_ok by done.
  rewrite setitem_rows.
  destruct (songplay_loop I R (setitem df1 "ts"
              ((λ ir, (ir.1, start_time ir.2)) <$> rows df1)) (rows df1) c2
              Hacc Hans HI2) as (c3 & idl & Hrun3 & HI3 & HR & Hlog3).
  { simpl. rewrite Hcols1. unfold songplay_fields.
    repeat (constructor; [apply elem_of_union; by right|]). constructor. }
  exists c3, idl. rewrite <-Hrows. split_and!; [done..|].
  rewrite Hlog3, Hlog2, Hlog1. unfold log_calls. by rewrite <-!app_assoc.
Qed.

(** The run of [process_log_file] on a file in the log format: what it
    leaves executed, whether the file has events or not. *)
Lemma process_log_file_run I R filepath rs c :
  read_lines filepath = Some rs →
  has_fields log_fields rs → convertible rs →
  accepts log_statements I → answers I R → I (conn c) →
  ∃ idl,
    (rs ≠ [] → (process_log_file read_lines filepath c).1 = Ok ()) ∧
    I (conn (process_log_file read_lines filepath c).2) ∧
    Forall2 (λ ir ids, R (select_args ir.2) ids) (retained rs) idl ∧
    executed (process_log_file read_lines filepath c).2
    = executed c ++ log_calls (retained rs) idl.
Proof.
  intros Hread Hfields Hconv Hacc Hans HI.
  destruct rs as [|r rs].
  - exists []. unfold process_log_file, read_json. rewrite Hread.
    rewrite bind_lift_ok. unfold getitem.
    rewrite decide_False by apply columns_empty.
    split_and!; [done|done|constructor|].
    unfold log_calls, retained. simpl. by rewrite app_nil_r.
  - destruct (process_log_file_events I R filepath r rs c)
      as (c' & idl & Hrun & HI' & HR & Hlog); [done..|].
    exists idl. by rewrite Hrun.
Qed.
Lemma issued_app {A} (m : M (cursor db) A) c calls :
  executed (m c).2 = executed c ++ calls → issued m c = calls.
Proof. intros Hlog. unfold issued. by rewrite Hlog, drop_app_length. Qed.

(** The run of [process_song_file] on a file with a first record. *)
Lemma process_song_file_run I filepath r rs c :
  read_lines filepath = Some (r :: rs) →
  Forall (λ k, k ∈ columns (from_records (r :: rs))) (song_fields ++ artist_fields) →
  accepts song_statements I → I (conn c) →
  ∃ c', process_song_file read_lines filepath c = (Ok (), c') ∧ I (conn c') ∧
        executed c' = executed c ++
          [(song_table_insert, cell r <$> song_fields);
           (artist_table_insert, cell r <$> artist_fields)].
Proof.
  intros Hread Hcols Hacc HI. apply Forall_app in Hcols as [Hsong Hartist].
  unfold process_song_file, read_json. rewrite Hread, bind_lift_ok.
  rewrite !getitem_list_ok by done. rewrite !bind_lift_ok.
  destruct (execute_accepted song_statements I song_table_insert
              (cell r <$> song_fields) c) as (c1 & Hex1 & HI1 & Hlog1);
    [done|unfold song_statements; set_unfold; tauto|done|].
  destruct (execute_accepted song_statements I artist_table_insert
              (cell r <$> artist_fields) c1) as (c2 & Hex2 & HI2 & Hlog2);
    [done|unfold song_statements; set_unfold; tauto|done|].
  exists c2. cbn [rows from_records imap fmap list_fmap first_values fst snd].
  rewrite !bind_lift_ok. erewrite bind_run_ok; [|exact Hex1].
  split_and!; [exact Hex2|done|]. by rewrite Hlog2, Hlog1, <-app_assoc.
Qed.
End runs.

(** ** Reading the record of a cursor *)

Lemma params_of_app q calls1 calls2 :
  params_of q (calls1 ++ calls2) = params_of q calls1 ++ params_of q calls2.
Proof. unfold params_of. by rewrite filter_app, fmap_app. Qed.

Lemma params_of_same {A} q (f : A → list value) (l : list A) :
  params_of q ((λ x, (q, f x)) <$> l) = f <$> l.
Proof.
  unfold params_of. induction l as [|x l IH]; [done|].
  csimpl. rewrite filter_cons, decide_True by done. csimpl. by rewrite IH.
Qed.

Lemma params_of_other {A} q q' (f : A → list value) (l : list A) :
  q' ≠ q → params_of q ((λ x, (q', f x)) <$> l) = [].
Proof.
  intros Hne. unfold params_of. induction l as [|x l IH]; [done|].
  csimpl. by rewrite filter_cons, decide_False by done.
Qed.

Lemma params_of_songplay_pairs (kept : list (Z * gmap string value)) idl :
  length idl = length kept →
  params_of songplay_table_insert (concat (zip_with (λ ir ids,
    [(song_select, select_args ir.2);
     (songplay_table_insert, songplay_args ir ids)]) kept idl))
  = zip_with songplay_args kept idl ∧
  params_of song_select (concat (zip_with (λ ir ids,
    [(song_select, select_args ir.2);
     (songplay_table_insert, songplay_args ir ids)]) kept idl))
  = (λ ir, select_args ir.2) <$> kept ∧
  (∀ q, q ≠ song_select → q ≠ songplay_table_insert →
     params_of q (concat (zip_with (λ ir ids,
       [(song_select, select_args ir.2);
        (songplay_table_insert, songplay_args ir ids)]) kept idl)) = []).
Proof.
  revert idl. induction kept as [|ir kept IH]; intros [|ids idl] Hlen;
    simplify_eq/=; [done|].
  destruct (IH idl) as (IH1 & IH2 & IH3); [done|].
  unfold params_of in *. split_and!.
  - rewrite !filter_cons, decide_False, decide_True by done. csimpl.
    by rewrite IH1.
  - rewrite !filter_cons, decide_True, decide_False by done. csimpl.
    by rewrite IH2.
  - intros q Hq1 Hq2. rewrite !filter_cons, !decide_False by done. by apply IH3.
Qed.

(** The parameters of the three inserts of a log file, read off the calls
    of its run. *)
Lemma params_of_log_calls (kept : list (Z * gmap string value)) idl :
  length idl = length kept →
  params_of time_table_insert (log_calls kept idl) = (λ ir, time_args ir.2) <$> kept ∧
  params_of user_table_insert (log_calls kept idl) = (λ ir, user_args ir.2) <$> kept ∧
  params_of songplay_table_insert (log_calls kept idl) = zip_with songplay_args kept idl ∧
  params_of song_table_insert (log_calls kept idl) = [] ∧
  params_of artist_table_insert (log_calls kept idl) = [].
Proof.
  intros Hlen. destruct (params_of_songplay_pairs kept idl Hlen) as (Hp & _ & Hq).
  unfold log_calls. rewrite !params_of_app.
  rewrite !params_of_same, !params_of_other, Hp, !Hq by done.
  by rewrite !app_nil_r.
Qed.

Lemma labelled_filter_snd {A} (P : gmap string value → Prop) `{!∀ r, Decision (P r)}
    (f : nat → gmap string value → A * gmap string value)
    (rs : list (gmap string value)) :
  (∀ i r, (f i r).2 = r) →
  (filter (λ ir, P ir.2) (imap f rs)).*2 = filter P rs.
Proof.
  revert f. induction rs as [|r rs IH]; intros f Hf; [done|].
  csimpl. rewrite !filter_cons, Hf.
  destruct (decide (P r)); csimpl; rewrite IH by (intros; apply Hf);
    by rewrite ?Hf.
Qed.

Lemma retained_events rs : (retained rs).*2 = filter next_song rs.
Proof. unfold retained, labelled. by apply (labelled_filter_snd next_song). Qed.

Lemma retained_length rs : length (retained rs) = length (filter next_song rs).
Proof. by rewrite <-retained_events, length_fmap. Qed.

(** ** The loader *)

Section loader.
Context {db : Type} `{!Store db}.
Variable fs_lookup : string → option fstree.
Variable abspath : string → string.

Implicit Types (func : string → M (cursor db) unit) (w : session db).

Lemma for_each_app {S A} (body : A → M S unit) (l1 l2 : list A) s :
  for_each body (l1 ++ l2) s
  = bind (for_each body l1) (λ _, for_each body l2) s.
Proof.
  revert s. induction l1 as [|x l1 IH]; intros s; [done|].
  cbn [app for_each]. unfold bind.
  destruct (body x s) as [[[]|e] s1]; [|done]. rewrite IH. done.
Qed.

(** A round that the extractor survives: the file is called, the
    transaction committed, the progress line printed, and the loop goes
    on. *)
Lemma process_files_round func n i f rest w c1 :
  func f (cur w) = (Ok (), c1) →
  process_files func n ((i, f) :: rest) w
  = process_files func n rest
      (Session (Cursor (db_commit (conn c1)) (executed c1) (resultset c1))
               (trace w ++ round n (i, f))).
Proof.
  intros Hf. unfold process_files. cbn [for_each fst snd].
  unfold bind, call, commit, print. rewrite Hf. cbn [cur trace].
  unfold round. cbn [fst snd]. by rewrite <-!app_assoc.
Qed.

(** A round in which the extractor raises: the loop ends there. *)
Lemma process_files_raise func n i f rest w e c1 :
  func f (cur w) = (Raise e, c1) →
  process_files func n ((i, f) :: rest) w
  = (Raise e, Session c1 (trace w ++ [Called f])).
Proof.
  intros Hf. unfold process_files. cbn [for_each fst snd].
  unfold bind, call. by rewrite Hf.
Qed.

Lemma process_files_trace func n l w w1 :
  process_files func n l w = (Ok (), w1) →
  trace w1 = trace w ++ concat (round n <$> l).
Proof.
  revert w. induction l as [|[i f] l IH]; intros w Hrun.
  - unfold process_files in Hrun. simpl in Hrun. injection Hrun as <-.
    simpl. by rewrite app_nil_r.
  - destruct (func f (cur w)) as [[[]|e] c1] eqn:Hf.
    + rewrite (process_files_round _ _ _ _ _ _ _ Hf) in Hrun.
      apply IH in Hrun. rewrite Hrun. cbn [trace].
      rewrite fmap_cons. cbn [concat]. by rewrite <-app_assoc.
    + by rewrite (process_files_raise _ _ _ _ _ _ _ _ Hf) in Hrun.
Qed.

Lemma process_files_app func n l1 l2 w w1 :
  process_files func n l1 w = (Ok (), w1) →
  process_files func n (l1 ++ l2) w = process_files func n l2 w1.
Proof.
  intros Hrun. unfold process_files in *. rewrite for_each_app.
  unfold bind at 1. by rewrite Hrun.
Qed.

Lemma process_data_unfold root func w :
  process_data fs_lookup abspath root func w
  = process_files func (length (discover fs_lookup abspath root))
      (enumerate (discover fs_lookup abspath root))
      (Session (cur w)
         (trace w ++ [Printed (pretty (length (discover fs_lookup abspath root))
                               +:+ " files found in " +:+ root)])).
Proof. reflexivity. Qed.

Lemma enumerate_lookup (l : list string) k :
  enumerate l !! k = (λ f, (S k, f)) <$> l !! k.
Proof. unfold enumerate. by rewrite list_lookup_imap. Qed.
End loader.

(** ** Log files: the inserts of a run *)

Lemma fmap_zip_with {A B C D} (g : C → D) (f : A → B → C) (l : list A) (k : list B) :
  g <$> zip_with f l k = zip_with (λ x y, g (f x y)) l k.
Proof.
  revert k. induction l as [|x l IH]; intros [|y k]; csimpl; [done..|].
  by rewrite IH.
Qed.

Lemma zip_with_left {A B C} (h : A → C) (l : list A) (k : list B) :
  length k = length l → zip_with (λ x _, h x) l k = h <$> l.
Proof.
  revert k. induction l as [|x l IH]; intros [|y k] Hlen; simplify_eq/=; [done|].
  by rewrite IH.
Qed.

Lemma zip_with_right {A B} (l : list A) (k : list B) :
  length k = length l → zip_with (λ _ y, y) l k = k.
Proof.
  revert k. induction l as [|x l IH]; intros [|y k] Hlen; simplify_eq/=; [done|].
  by rewrite IH.
Qed.

Lemma filter_none {A} (P : A → Prop) `{!∀ x, Decision (P x)} (l : list A) :
  Forall (λ x, ¬ P x) l → filter P l = [].
Proof.
  induction 1 as [|x l Hx _ IH]; [done|].
  by rewrite filter_cons, decide_False.
Qed.

Section log_file.
Context {db : Type} `{!Store db}.
Variable read_lines : string → option (list (gmap string value)).

(** The parameters of every insert that a run on a file in the log format
    issues, under a store that accepts the statements of the extractor. *)
Lemma log_file_inserts (I : db → Prop) R filepath rs (c : cursor db) :
  read_lines filepath = Some rs →
  has_fields log_fields rs → convertible rs →
  accepts log_statements I → answers I R → I (conn c) →
  let run := process_log_file read_lines filepath in
  (rs ≠ [] → (run c).1 = Ok ()) ∧
  params_of time_table_insert (issued run c)
    = (λ ir, time_args ir.2) <$> retained rs ∧
  params_of user_table_insert (issued run c)
    = (λ ir, user_args ir.2) <$> retained rs ∧
  params_of song_table_insert (issued run c) = [] ∧
  params_of artist_table_insert (issued run c) = [] ∧
  ∃ idl, Forall2 (λ ir ids, R (select_args ir.2) ids) (retained rs) idl ∧
    params_of songplay_table_insert (issued run c)
      = zip_with songplay_args (retained rs) idl.
Proof.
  intros Hread Hfields Hconv Hacc Hans HI run.
  destruct (process_log_file_run read_lines I R filepath rs c)
    as (idl & Hok & _ & HR & Hlog); [done..|].
  apply issued_app in Hlog. fold run in Hlog. rewrite Hlog.
  destruct (params_of_log_calls (retained rs) idl) as (Ht & Hu & Hs & Hsg & Ha).
  { symmetry. by eapply Forall2_length. }
  split_and!; [done..|]. by exists idl.
Qed.

Lemma log_file_inserts_plain (I : db → Prop) filepath rs (c : cursor db) :
  read_lines filepath = Some rs →
  has_fields log_fields rs → convertible rs →
  accepts log_statements I → I (conn c) →
  let run := process_log_file read_lines filepath in
  params_of time_table_insert (issued run c)
    = (λ ir, time_args ir.2) <$> retained rs ∧
  params_of user_table_insert (issued run c)
    = (λ ir, user_args ir.2) <$> retained rs ∧
  params_of song_table_insert (issued run c) = [] ∧
  params_of artist_table_insert (issued run c) = [] ∧
  (rs ≠ [] → (run c).1 = Ok ()) ∧
  ∃ idl, length idl = length (retained rs) ∧
    params_of songplay_table_insert (issued run c)
      = zip_with songplay_args (retained rs) idl.
Proof.
  intros Hread Hfields Hconv Hacc HI run.
  destruct (log_file_inserts I (λ _ _, True) filepath rs c)
    as (Hok & Ht & Hu & Hs & Ha & idl & HR & Hp); [done..|by intros ?|done|].
  split_and!; [done..|]. exists idl. split; [|done].
  symmetry. by eapply Forall2_length.
Qed.

(** A file with events, none of them a [NextSong]: the run reads the
    columns, finds no row, and leaves the cursor as it was. *)
Lemma quiet_log_file_run filepath r rs (c : cursor db) :
  read_lines filepath = Some (r :: rs) →
  has_fields filter_fields (r :: rs) →
  Forall (λ r, ¬ next_song r) (r :: rs) →
  process_log_file read_lines filepath c = (Ok (), c).
Proof.
  intros Hread Hfields Hquiet.
  unfold process_log_file, read_json. rewrite Hread.
  pose proof (columns_from_records _ _ _ Hfields) as Hcols.
  set (df := from_records (r :: rs)) in *.
  unfold filter_fields, user_fields in Hcols. rewrite !Forall_cons in Hcols.
  destruct (Hcols) as (?&?&?&?&?&?&?&_).
  rewrite bind_lift_ok, getitem_ok, bind_lift_ok by done.
  set (df1 := select df _).
  assert (Hrows : rows df1 = []).
  { unfold df1. rewrite rows_select_eq.
    change (filter _ (rows df)) with (retained (r :: rs)).
    apply fmap_nil_inv with (f := snd).
    rewrite retained_events. by apply filter_none. }
  assert (Hcols1 : columns df1 = columns df) by done.
  clearbody df1.
  rewrite !getitem_ok by (by rewrite Hcols1).
  rewrite (getitem_list_ok df1) by (rewrite Hcols1; by repeat constructor).
  rewrite Hrows. simpl. rewrite !bind_lift_ok. simpl.
  unfold setitem. rewrite Hrows. done.
Qed.
End log_file.

(** ** Integer timestamps *)

Lemma start_time_integer (r : gmap string value) :
  within_range (cell r "ts") → start_time r = VTime (ts_of r).
Proof.
  unfold within_range, start_time, ts_of, to_datetime_ms.
  destruct (cell r "ts") as [|ms| | |]; try done. intros Hms.
  rewrite bool_decide_false, bool_decide_true; [done..|].
  unfold iNaT, timestamp_max_ms in *. lia.
Qed.

Lemma integer_timestamps_convertible rs : integer_timestamps rs → convertible rs.
Proof.
  unfold integer_timestamps, convertible. intros Hts.
  eapply Forall_impl; [exact Hts|]. intros ir Hir. apply start_time_integer in Hir. unfold start_time in Hir.
  by destruct (to_datetime_ms (cell ir.2 "ts")).
Qed.

Lemma integer_timestamps_events rs :
  integer_timestamps rs →
  Forall (λ r : gmap string value, within_range (cell r "ts")) (filter next_song rs).
Proof.
  unfold integer_timestamps. intros Hts.
  rewrite <-retained_events. by apply Forall_fmap.
Qed.

Lemma start_times_integer rs :
  integer_timestamps rs →
  start_time <$> filter next_song rs
  = (λ r, VTime (ts_of r)) <$> filter next_song rs.
Proof.
  intros Hts%integer_timestamps_events. apply Forall_fmap_ext_1.
  eapply Forall_impl; [exact Hts|]. intros r. apply start_time_integer.
Qed.


(** ** The store of the specification *)

Lemma catalog_accepts qs : accepts (db := tables) qs (λ _, True).
Proof. intros q args T _ _. destruct q; simpl; eauto. Qed.

(** The equality of the store on some cells: the integer 200 and the
    float 200.0, the two zeros, a text and itself are equal; two nulls,
    and two floats one unit in the last place apart, are not. *)
Example store_eq_cells :
  store_eq (VInt 200) (VFloat 4641240890982006784) ∧
  store_eq (VFloat 0) (VFloat (-9223372036854775808)) ∧
  store_eq (VStr "T") (VStr "T") ∧
  ¬ store_eq VNull VNull ∧
  ¬ store_eq (VFloat 4641240890982006784) (VFloat 4641240890982006785) ∧
  ¬ store_eq (VStr "200") (VInt 200).
Proof. split_and!; by_computation. Qed.

(** The statements of the log extractor leave the songs and the artists
    of the store alone. *)
Lemma catalog_keeps_songs T :
  accepts log_statements (λ T', songs T' = songs T ∧ artists T' = artists T).
Proof.
  intros q args T' Hq [Hs Ha]. unfold log_statements in Hq.
  destruct q; simpl; eauto; exfalso; set_unfold; intuition discriminate.
Qed.

Lemma catalog_answers T :
  answers (λ T', songs T' = songs T ∧ artists T' = artists T)
          (λ args ids, ids = first_or_null (song_select_rows T args)).
Proof.
  intros T' args T'' rs [Hs Ha] Hex. simpl in Hex. injection Hex as _ <-.
  unfold song_select_rows. by rewrite Hs, Ha.
Qed.

Lemma stored_pairs T (s a : list value) :
  (s, a) ∈ (s ← songs T; (λ a, (s, a)) <$> artists T) ↔ s ∈ songs T ∧ a ∈ artists T.
Proof.
  rewrite list_elem_of_bind. split.
  - intros (s' & Hin & Hs). apply list_elem_of_fmap in Hin as (a' & Heq & Ha).
    by simplify_eq.
  - intros [Hs Ha]. exists s. split; [|done]. apply list_elem_of_fmap. eauto.
Qed.

(** What the lookup of an event resolves to: the identifiers of a stored
    song and its artist that match the event, when there is such a pair,
    and two nulls when there is none. *)
Lemma song_select_resolves T (r : gmap string value) ids :
  ids = first_or_null (song_select_rows T (select_args r)) →
  (∃ s a, stored_match T r s a ∧ ids = (column s 0, column a 0)) ∨
  ((∀ s a, ¬ stored_match T r s a) ∧ ids = (VNull, VNull)).
Proof.
  intros ->. unfold select_args, song_select_rows.
  destruct (filter _ _) as [|[s a] l] eqn:Hf.
  - right. split; [|done]. intros s a (Hs & Ha & Hm).
    assert (Hin : (s, a) ∈ filter (matches (cell r "song") (cell r "artist")
                                     (cell r "length"))
                          (s ← songs T; (λ a, (s, a)) <$> artists T)).
    { apply list_elem_of_filter. split; [done|]. by apply stored_pairs. }
    rewrite Hf in Hin. by apply not_elem_of_nil in Hin.
  - left. exists s, a. split; [|done].
    assert (Hin : (s, a) ∈ filter (matches (cell r "song") (cell r "artist")
                                     (cell r "length"))
                          (s ← songs T; (λ a, (s, a)) <$> artists T)).
    { rewrite Hf. apply list_elem_of_here. }
    apply list_elem_of_filter in Hin as [Hm Hin].
    apply stored_pairs in Hin as [Hs Ha]. done.
Qed.

(** ** The typing of the columns of a file *)

Lemma carried_columns k rs : carried k rs ↔ k ∈ columns (from_records rs).
Proof.
  unfold carried. simpl. rewrite elem_of_union_list, Exists_exists. split.
  - intros (r & Hin & Hk). exists (dom r). split; [|by apply elem_of_dom].
    apply list_elem_of_fmap. eauto.
  - intros (X & HX & Hk). apply list_elem_of_fmap in HX as (r & -> & Hr).
    exists r. split; [done|]. by apply elem_of_dom.
Qed.

Lemma carried_all fields rs :
  Forall (λ k, carried k rs) fields ↔
  Forall (λ k, k ∈ columns (from_records rs)) fields.
Proof. apply Forall_proper; [|done]. intros k. apply carried_columns. Qed.

Lemma lookup_retyped forced rs (r : gmap string value) k :
  map_imap (λ k v, Some (typed forced rs k v)) r !! k
  = typed forced rs k <$> r !! k.
Proof. rewrite map_lookup_imap. by destruct (r !! k). Qed.

Lemma typed_null forced rs k : typed forced rs k VNull = VNull.
Proof. unfold typed. by destruct (typing_of forced rs k) as [[]|]. Qed.

(** A cell of the frame is the field of the record, typed. *)
Lemma cell_retyped forced rs (r : gmap string value) k :
  cell (map_imap (λ k v, Some (typed forced rs k v)) r) k
  = typed forced rs k (default VNull (r !! k)).
Proof.
  unfold cell. rewrite lookup_retyped.
  destruct (r !! k); simpl; [done|]. symmetry. apply typed_null.
Qed.

Lemma has_fields_retyped forced fields rs :
  has_fields fields rs → has_fields fields (retyped forced rs).
Proof.
  unfold has_fields, retyped. intros Hf. apply Forall_fmap.
  eapply Forall_impl; [exact Hf|]. intros r Hr. cbn [compose].
  eapply Forall_impl; [exact Hr|]. intros k Hk.
  rewrite lookup_retyped. by apply fmap_is_Some.
Qed.

Lemma carried_retyped forced k rs : carried k rs → carried k (retyped forced rs).
Proof.
  unfold carried, retyped. rewrite !Exists_exists.
  intros (r & Hin & Hk). eexists. split.
  - apply list_elem_of_fmap. by exists r.
  - rewrite lookup_retyped. by apply fmap_is_Some.
Qed.

(** The typing changes no text into [NextSong] and leaves every
    [NextSong] as it is: the filter keeps the events that are written as
    [NextSong]. *)
Lemma typed_next_song forced rs k v :
  typed forced rs k v = VStr "NextSong" ↔ v = VStr "NextSong".
Proof.
  unfold typed. destruct (typing_of forced rs k) as [[]|]; try done.
  destruct v as [| |bits|s|]; simpl; try done.
  - destruct (integral (binary64 bits)); simpl; split; done.
  - destruct (int_text s) eqn:Hs; simpl; [|done].
    split; [done|]. intros [= ->]. by vm_compute in Hs.
Qed.

Lemma next_song_retyped forced rs (r : gmap string value) :
  next_song (map_imap (λ k v, Some (typed forced rs k v)) r) ↔ next_song r.
Proof. unfold next_song. rewrite cell_retyped. apply typed_next_song. Qed.

Lemma filter_fmap_iff {A} (P : A → Prop) `{!∀ x, Decision (P x)} (f : A → A)
    (l : list A) :
  (∀ x, P (f x) ↔ P x) → filter P (f <$> l) = f <$> filter P l.
Proof.
  intros Hf. induction l as [|x l IH]; [done|].
  rewrite fmap_cons, !filter_cons.
  destruct (decide (P x)) as [Hx|Hx].
  - rewrite decide_True by (by apply Hf). by rewrite fmap_cons, IH.
  - rewrite decide_False by (by rewrite Hf). done.
Qed.

Lemma filter_next_song_retyped forced rs :
  filter next_song (retyped forced rs)
  = (λ r : gmap string value, map_imap (λ k v, Some (typed forced rs k v)) r)
      <$> filter next_song rs.
Proof.
  unfold retyped. apply (filter_fmap_iff next_song). intros r.
  apply next_song_retyped.
Qed.

(** What the typing does to a column of a kind. *)
Lemma int_text_not_text v : int_text_cell v → ¬ text_cell v.
Proof.
  destruct v as [| | |s|]; simpl; try done.
  destruct s as [|c s]; [done|]. unfold int_text, not_float, may_start_float.
  intros Hint Htext. apply andb_prop in Htext as [Hstart _].
  apply negb_true_iff in Hstart. rewrite !orb_false_iff in Hstart.
  destruct Hstart as [[[Hdigit _] Hsign] _].
  apply bool_decide_eq_false in Hsign.
  repeat case_bool_decide; try (apply Hsign; set_unfold; lia).
  cbn [decimal] in Hint. by rewrite Hdigit in Hint.
Qed.

Lemma infer_text cells : Exists text_cell cells → infer cells ≠ Some Integers.
Proof.
  intros Htext. unfold infer. repeat case_decide; done.
Qed.

Lemma infer_int64 cells : Forall int64_cell cells → infer cells ≠ Some Integers.
Proof.
  intros Hint. unfold infer. repeat case_decide; try done.
  match goal with H : Exists str_cell cells |- _ =>
    apply Exists_exists in H as (v & Hin & Hv) end.
  rewrite Forall_forall in Hint. specialize (Hint v Hin). by destruct v.
Qed.

Lemma infer_int_text cells :
  cells ≠ [] → Forall int_text_cell cells → infer cells = Some Integers.
Proof.
  intros Hne Hint. unfold infer.
  rewrite decide_False; last first.
  { rewrite Exists_exists. intros (v & Hin & Hv).
    rewrite Forall_forall in Hint. specialize (Hint v Hin). by destruct v. }
  rewrite decide_False; last first.
  { rewrite Exists_exists. intros (v & Hin & Hv).
    rewrite Forall_forall in Hint. by apply (int_text_not_text v); auto. }
  rewrite decide_True; last first.
  { destruct cells as [|v cells]; [done|]. apply Exists_cons_hd.
    apply Forall_cons in Hint as [Hv _]. by destruct v. }
  by rewrite decide_True.
Qed.

Lemma infer_whole_floats cells :
  cells ≠ [] → Forall whole_float_cell cells → infer cells = Some Integers.
Proof.
  intros Hne Hw. unfold infer. rewrite Forall_forall in Hw.
  rewrite decide_False; last first.
  { rewrite Exists_exists. intros (v & Hin & Hv).
    specialize (Hw v Hin). by destruct v. }
  rewrite decide_False; last first.
  { rewrite Exists_exists. intros (v & Hin & Hv).
    specialize (Hw v Hin). by destruct v. }
  rewrite decide_False; last first.
  { rewrite Exists_exists. intros (v & Hin & Hv).
    specialize (Hw v Hin). by destruct v. }
  rewrite decide_False; last first.
  { intros Hint. destruct cells as [|v cells]; [done|].
    apply Forall_cons in Hint as [Hv _].
    specialize (Hw v (list_elem_of_here _ _)). by destruct v. }
  rewrite decide_True; last first.
  { apply Forall_forall. intros v Hin. specialize (Hw v Hin). by destruct v. }
  rewrite decide_False; last first.
  { rewrite Exists_exists. intros (v & Hin & Hv).
    specialize (Hw v Hin). destruct v as [| |bits| |]; try done.
    simpl in Hw, Hv. by rewrite Hv in Hw. }
  rewrite decide_True; [done|]. by apply Forall_forall.
Qed.

Section typing_facts.
Variable forced : list string.
Variable rs : list (gmap string value).

Lemma column_cells_nil k : column_cells rs k = [] → rs = [].
Proof. unfold column_cells. apply fmap_nil_inv. Qed.

(** A column with some text that is no number comes out as it was
    read. *)
Lemma typed_text k v :
  k ∉ forced → Exists text_cell (column_cells rs k) → typed forced rs k v = v.
Proof.
  intros Hk Htext. unfold typed, typing_of. rewrite decide_False by done.
  pose proof (infer_text _ Htext).
  by destruct (infer (column_cells rs k)) as [[]|].
Qed.

(** A column of 64-bit integers comes out as it was read, cast or not. *)
Lemma typed_int64 k v :
  Forall int64_cell (column_cells rs k) → typed forced rs k v = v.
Proof.
  intros Hint. unfold typed, typing_of. case_decide.
  - unfold cast_int. by rewrite decide_True.
  - pose proof (infer_int64 _ Hint).
    by destruct (infer (column_cells rs k)) as [[]|].
Qed.

(** A column in which every record writes an integer as text comes out
    as these integers. *)
Lemma typed_int_text k s n :
  k ∉ forced → rs ≠ [] → Forall int_text_cell (column_cells rs k) →
  int_text s = Some n → typed forced rs k (VStr s) = VInt n.
Proof.
  intros Hk Hne Hint Hs. unfold typed, typing_of. rewrite decide_False by done.
  rewrite infer_int_text; [|by intros ?%column_cells_nil|done].
  simpl. by rewrite Hs.
Qed.

(** A column of floats and nulls with a null, an infinity, a NaN or a
    fractional part somewhere comes out as it was read. *)
Lemma typed_fractional k v :
  k ∉ forced → Forall float_or_null_cell (column_cells rs k) →
  Exists fractional_cell (column_cells rs k) → typed forced rs k v = v.
Proof.
  intros Hk Hfloat Hfrac. unfold typed, typing_of. rewrite decide_False by done.
  unfold infer. repeat case_decide; try done.
  match goal with H : Exists str_cell _ |- _ =>
    apply Exists_exists in H as (v' & Hin & Hv) end.
  rewrite Forall_forall in Hfloat. specialize (Hfloat v' Hin). by destruct v'.
Qed.

(** A column in which every record has a whole float comes out as the
    integers of these floats, cast or not. *)
Lemma typed_whole_float k bits z :
  rs ≠ [] → Forall whole_float_cell (column_cells rs k) →
  integral (binary64 bits) = Some z → typed forced rs k (VFloat bits) = VInt z.
Proof.
  intros Hne Hw Hz. unfold typed, typing_of. case_decide.
  - unfold cast_int. rewrite decide_False, decide_True; [|done|].
    + simpl. by rewrite Hz.
    + intros Hint.
      assert (Hcells : column_cells rs k ≠ []) by (by intros ?%column_cells_nil).
      destruct (column_cells rs k) as [|v cells]; [done|].
      apply Forall_cons in Hint as [Hv _]. apply Forall_cons in Hw as [Hv' _].
      by destruct v.
  - rewrite infer_whole_floats; [|by intros ?%column_cells_nil|done].
    simpl. by rewrite Hz.
Qed.
End typing_facts.

(** ** The Event Record Extractor *)

(** C1, as the specification states it, fails on [/data/log_data/a.json]:
    the file holds a [Home] event and then two [NextSong] events; the
    retained events are the first and the second after filtering, and
    their songplays carry the identifiers 2 and 3, not 1 and 2. *)
Lemma songplay_identifier_counterexample :
  (retained example_log).*2 = [example_play; example_other] ∧
  songplay_ids
    (issued (process_log_file example_read "/data/log_data/a.json") example_cursor)
  = [VInt 2; VInt 3] ∧
  ¬ (songplay_ids
       (issued (process_log_file example_read "/data/log_data/a.json") example_cursor)
     = (λ k : nat, VInt (Z.of_nat k)) <$> seq 1 (length (retained example_log))).
Proof.
  split_and!.
  - reflexivity.
  - reflexivity.
  - intros Heq. vm_compute in Heq. discriminate Heq.
Qed.

(** C1 (amended): for every log file, one songplay insert is issued per
    retained ([NextSong]) event, and its identifier is the 1-based position
    of the event among all the events of the file, counted before the
    filter: the label that the row keeps through the filter, plus one. *)
Theorem songplay_identifier_is_file_position
    {db : Type} `{!Store db} (read_lines : string → option (list (gmap string value)))
    (I : db → Prop) filepath rs (c : cursor db) :
  read_lines filepath = Some rs →
  has_fields log_fields rs → convertible rs →
  accepts log_statements I → I (conn c) →
  let calls := issued (process_log_file read_lines filepath) c in
  length (params_of songplay_table_insert calls) = length (filter next_song rs) ∧
  songplay_ids calls = (λ ir, VInt (ir.1 + 1)) <$> retained rs ∧
  Forall (λ ir, (0 ≤ ir.1)%Z ∧ rs !! Z.to_nat ir.1 = Some ir.2 ∧ next_song ir.2)
         (retained rs).
Proof.
  intros Hread Hfields Hconv Hacc HI calls.
  destruct (log_file_inserts_plain read_lines I filepath rs c)
    as (_ & _ & _ & _ & _ & idl & Hlen & Hp); [done..|].
  fold calls in Hp. unfold songplay_ids. rewrite Hp. split_and!.
  - by rewrite length_zip_with, Hlen, Nat.min_id, retained_length.
  - rewrite fmap_zip_with. by apply (zip_with_left (λ ir, VInt (ir.1 + 1))).
  - apply Forall_forall. intros ir Hin.
    destruct (retained_label rs ir Hin) as [Hpos Hat]. split_and!; [done..|].
    by apply list_elem_of_filter in Hin as [Hn _].
Qed.

(** C1 (amended) on [/data/log_data/a.json]: the identifiers are 2 and 3. *)
Lemma songplay_identifier_witness :
  let calls :=
    issued (process_log_file example_read "/data/log_data/a.json") example_cursor in
  length (params_of songplay_table_insert calls)
    = length (filter next_song example_log) ∧
  songplay_ids calls = (λ ir, VInt (ir.1 + 1)) <$> retained example_log ∧
  Forall (λ ir, (0 ≤ ir.1)%Z ∧ example_log !! Z.to_nat ir.1 = Some ir.2 ∧
                next_song ir.2)
         (retained example_log).
Proof.
  apply (songplay_identifier_is_file_position example_read (λ _, True)
           "/data/log_data/a.json" example_log example_cursor).
  - reflexivity.
  - by_computation.
  - by_computation.
  - apply catalog_accepts.
  - exact I.
Defined.

(** C4: for every log file, the number of songplay inserts equals the
    number of events whose page is [NextSong]; so do the numbers of time
    and user inserts, and no other insert is issued: an event with another
    page produces no insert of any kind. *)
Theorem songplay_count_is_next_song_count
    {db : Type} `{!Store db} (read_lines : string → option (list (gmap string value)))
    (I : db → Prop) filepath rs (c : cursor db) :
  read_lines filepath = Some rs →
  has_fields log_fields rs → convertible rs →
  accepts log_statements I → I (conn c) →
  let calls := issued (process_log_file read_lines filepath) c in
  (rs ≠ [] → (process_log_file read_lines filepath c).1 = Ok ()) ∧
  length (params_of songplay_table_insert calls) = length (filter next_song rs) ∧
  length (params_of time_table_insert calls) = length (filter next_song rs) ∧
  length (params_of user_table_insert calls) = length (filter next_song rs) ∧
  params_of song_table_insert calls = [] ∧
  params_of artist_table_insert calls = [].
Proof.
  intros Hread Hfields Hconv Hacc HI calls.
  destruct (log_file_inserts_plain read_lines I filepath rs c)
    as (Ht & Hu & Hs & Ha & Hok & idl & Hlen & Hp); [done..|].
  fold calls in Ht, Hu, Hs, Ha, Hp. rewrite Ht, Hu, Hp.
  rewrite length_zip_with, Hlen, Nat.min_id, !length_fmap, retained_length.
  done.
Qed.

(** C4 on [/data/log_data/a.json]: three events, two of them retained. *)
Lemma songplay_count_witness :
  let calls :=
    issued (process_log_file example_read "/data/log_data/a.json") example_cursor in
  (example_log ≠ [] →
   (process_log_file example_read "/data/log_data/a.json" example_cursor).1 = Ok ()) ∧
  length (params_of songplay_table_insert calls)
    = length (filter next_song example_log) ∧
  length (params_of time_table_insert calls)
    = length (filter next_song example_log) ∧
  length (params_of user_table_insert calls)
    = length (filter next_song example_log) ∧
  params_of song_table_insert calls = [] ∧
  params_of artist_table_insert calls = [].
Proof.
  apply (songplay_count_is_next_song_count example_read (λ _, True)
           "/data/log_data/a.json" example_log example_cursor).
  - reflexivity.
  - by_computation.
  - by_computation.
  - apply catalog_accepts.
  - exact I.
Defined.

(** C8, as the specification states it, fails on [/data/log_data/a.json]:
    every event of the file writes its user id as the text ["8"];
    [pd.read_json] types the column as integers, and the user inserts
    carry the integer 8, not the text of the events. *)
Lemma user_insert_counterexample :
  let calls :=
    issued (process_log_file (pandas_lines [] example_written)
              "/data/log_data/a.json") example_cursor in
  (λ r : gmap string value, r !! "userId") <$> filter next_song example_log
  = [Some (VStr "8"); Some (VStr "8")] ∧
  params_of user_table_insert calls
  = [[VInt 8; VStr "Kaylee"; VStr "Summers"; VStr "F"; VStr "free"];
     [VInt 8; VStr "Kaylee"; VStr "Summers"; VStr "F"; VStr "paid"]] ∧
  ¬ (params_of user_table_insert calls
     = (λ r : gmap string value,
          (λ k, default VNull (r !! k)) <$> user_fields)
         <$> filter next_song example_log).
Proof.
  split_and!.
  - reflexivity.
  - reflexivity.
  - intros Heq. vm_compute in Heq. discriminate Heq.
Qed.

(** C8 (amended): for every log file, one user insert is issued per
    retained event, in file order, and nothing is deduplicated, so two
    retained events of one user give two inserts, the later event last.
    The insert carries the event's user id, first name, last name, gender
    and level as [pd.read_json] typed the columns of the file: as they
    are written when the column holds, in some event of the file, a text
    that is no number, or holds integers only; as integers when every
    event of the file writes an integer as text there.  This is for files
    whose events carry the fields of the format, whose columns [page],
    [ts] and of the user are typed within the fragment of [typing_of],
    with a user field that is text, timestamps that convert, and a store
    that accepts the statements. *)
Theorem user_insert_per_retained_event
    {db : Type} `{!Store db} (read_file : string → option (list (gmap string value)))
    (I : db → Prop) filepath rs (c : cursor db) :
  read_file filepath = Some rs →
  has_fields log_fields rs →
  Forall (λ k, is_Some (typing_of [] rs k)) filter_fields →
  some_text rs user_fields →
  convertible (retyped [] rs) →
  accepts log_statements I → I (conn c) →
  params_of user_table_insert
    (issued (process_log_file (pandas_lines [] read_file) filepath) c)
  = (λ r : gmap string value,
       (λ k, typed [] rs k (default VNull (r !! k))) <$> user_fields)
      <$> filter next_song rs ∧
  (∀ k v, Exists text_cell (column_cells rs k) → typed [] rs k v = v) ∧
  (∀ k v, Forall int64_cell (column_cells rs k) → typed [] rs k v = v) ∧
  (∀ k s n, rs ≠ [] → Forall int_text_cell (column_cells rs k) →
     int_text s = Some n → typed [] rs k (VStr s) = VInt n).
Proof.
  intros Hread Hfields _ _ Hconv Hacc HI. split_and!.
  - destruct (log_file_inserts_plain (pandas_lines [] read_file) I filepath
                (retyped [] rs) c) as (_ & Hu & _);
      [unfold pandas_lines; by rewrite Hread|by apply has_fields_retyped|done..|].
    assert (Hl : (λ ir : Z * gmap string value, user_args ir.2)
                   <$> retained (retyped [] rs)
                 = user_args <$> filter next_song (retyped [] rs)).
    { by rewrite <-retained_events, <-list_fmap_compose. }
    rewrite Hu, Hl, filter_next_song_retyped, <-list_fmap_compose.
    apply Forall_fmap_ext_1, Forall_true. intros r. cbn [compose].
    unfold user_args, user_fields. cbn [fmap list_fmap].
    by rewrite !cell_retyped.
  - intros k v. apply typed_text, not_elem_of_nil.
  - intros k v. apply typed_int64.
  - intros k s n. apply typed_int_text, not_elem_of_nil.
Qed.

(** C8 (amended) on [/data/log_data/a.json]: the same user twice, free,
    then paid, with the user id typed as an integer. *)
Lemma user_insert_witness :
  params_of user_table_insert
    (issued (process_log_file (pandas_lines [] example_written)
               "/data/log_data/a.json") example_cursor)
  = (λ r : gmap string value,
       (λ k, typed [] example_log k (default VNull (r !! k))) <$> user_fields)
      <$> filter next_song example_log ∧
  (∀ k v, Exists text_cell (column_cells example_log k) →
     typed [] example_log k v = v) ∧
  (∀ k v, Forall int64_cell (column_cells example_log k) →
     typed [] example_log k v = v) ∧
  (∀ k s n, example_log ≠ [] → Forall int_text_cell (column_cells example_log k) →
     int_text s = Some n → typed [] example_log k (VStr s) = VInt n).
Proof.
  apply (user_insert_per_retained_event example_written (λ _, True)
           "/data/log_data/a.json" example_log example_cursor).
  - reflexivity.
  - by_computation.
  - by_computation.
  - by_computation.
  - by_computation.
  - apply catalog_accepts.
  - exact I.
Defined.

(** C10: for every retained event of a file whose retained events have
    integer timestamps within the range of a pandas timestamp, the start
    time bound to its songplay insert is the start time bound to its time
    insert: both are the conversion of the event's [ts], the instant [ts]
    milliseconds after the epoch. *)
Theorem songplay_start_time_has_time_insert
    {db : Type} `{!Store db} (read_lines : string → option (list (gmap string value)))
    (I : db → Prop) filepath rs (c : cursor db) :
  read_lines filepath = Some rs →
  has_fields log_fields rs → integer_timestamps rs →
  accepts log_statements I → I (conn c) →
  let calls := issued (process_log_file read_lines filepath) c in
  songplay_start_times calls = (λ r, VTime (ts_of r)) <$> filter next_song rs ∧
  time_start_times calls = (λ r, VTime (ts_of r)) <$> filter next_song rs ∧
  songplay_start_times calls = time_start_times calls.
Proof.
  intros Hread Hfields Hts Hacc HI calls.
  pose proof (integer_timestamps_convertible rs Hts) as Hconv.
  destruct (log_file_inserts_plain read_lines I filepath rs c)
    as (Ht & _ & _ & _ & _ & idl & Hlen & Hp); [done..|].
  fold calls in Ht, Hp.
  assert (Hs : songplay_start_times calls = start_time <$> filter next_song rs).
  { unfold songplay_start_times. rewrite Hp, fmap_zip_with.
    etrans; [by apply (zip_with_left (λ ir, start_time ir.2))|].
    by rewrite <-retained_events, <-list_fmap_compose. }
  assert (Htm : time_start_times calls = start_time <$> filter next_song rs).
  { unfold time_start_times. rewrite Ht, <-retained_events, <-!list_fmap_compose.
    done. }
  rewrite Hs, Htm, start_times_integer by done. done.
Qed.

(** C10 on [/data/log_data/a.json]. *)
Lemma songplay_start_time_witness :
  let calls :=
    issued (process_log_file example_read "/data/log_data/a.json") example_cursor in
  songplay_start_times calls
  = (λ r, VTime (ts_of r)) <$> filter next_song example_log ∧
  time_start_times calls
  = (λ r, VTime (ts_of r)) <$> filter next_song example_log ∧
  songplay_start_times calls = time_start_times calls.
Proof.
  apply (songplay_start_time_has_time_insert example_read (λ _, True)
           "/data/log_data/a.json" example_log example_cursor).
  - reflexivity.
  - by_computation.
  - by_computation.
  - apply catalog_accepts.
  - exact I.
Defined.

(** C5: for every retained event of a file whose retained events have
    integer timestamps within the range of a pandas timestamp, the time
    insert is the decomposition of the event's millisecond timestamp, and
    of nothing else: the instant [ts] milliseconds after the epoch, then
    its hour, day, ISO week, month, year and weekday (Monday is 0), which
    are the fields of the timestamp in the calendar and the only ones; the
    timestamp 1541207073796 (2018-11-03, a Saturday, at 01:04:33 and 796
    ms) decomposes to hour 1, day 3, week 44, month 11, year 2018,
    weekday 5. *)
Theorem time_entity_decomposes_timestamp
    {db : Type} `{!Store db} (read_lines : string → option (list (gmap string value)))
    (I : db → Prop) filepath rs (c : cursor db) :
  read_lines filepath = Some rs →
  has_fields log_fields rs → integer_timestamps rs →
  accepts log_statements I → I (conn c) →
  params_of time_table_insert (issued (process_log_file read_lines filepath) c)
  = (λ r, [VTime (ts_of r); VInt (hour_of (ts_of r)); VInt (day_of (ts_of r));
           VInt (week_of (ts_of r)); VInt (month_of (ts_of r));
           VInt (year_of (ts_of r)); VInt (weekday_of (ts_of r))])
      <$> filter next_song rs ∧
  (∀ ms hour day week month year weekday,
     civil_fields ms hour day week month year weekday ↔
     hour = hour_of ms ∧ day = day_of ms ∧ week = week_of ms ∧
     month = month_of ms ∧ year = year_of ms ∧ weekday = weekday_of ms) ∧
  (hour_of 1541207073796, day_of 1541207073796, week_of 1541207073796,
   month_of 1541207073796, year_of 1541207073796, weekday_of 1541207073796)
  = (1, 3, 44, 11, 2018, 5)%Z.
Proof.
  intros Hread Hfields Hts Hacc HI. split_and!.
  - pose proof (integer_timestamps_convertible rs Hts) as Hconv.
    destruct (log_file_inserts_plain read_lines I filepath rs c)
      as (Ht & _); [done..|].
    rewrite Ht, <-retained_events, <-list_fmap_compose.
    apply Forall_fmap_ext_1. unfold integer_timestamps in Hts.
    eapply Forall_impl; [exact Hts|]. intros ir Hir. cbn [compose].
    unfold time_args. by rewrite (start_time_integer _ Hir).
  - intros ms hour day week month year weekday. split.
    + apply calendar_fields_unique.
    + intros (-> & -> & -> & -> & -> & ->). apply calendar_fields.
  - vm_compute. reflexivity.
Qed.

(** C5 on [/data/log_data/a.json]. *)
Lemma time_entity_witness :
  params_of time_table_insert
    (issued (process_log_file example_read "/data/log_data/a.json") example_cursor)
  = (λ r, [VTime (ts_of r); VInt (hour_of (ts_of r)); VInt (day_of (ts_of r));
           VInt (week_of (ts_of r)); VInt (month_of (ts_of r));
           VInt (year_of (ts_of r)); VInt (weekday_of (ts_of r))])
      <$> filter next_song example_log ∧
  (∀ ms hour day week month year weekday,
     civil_fields ms hour day week month year weekday ↔
     hour = hour_of ms ∧ day = day_of ms ∧ week = week_of ms ∧
     month = month_of ms ∧ year = year_of ms ∧ weekday = weekday_of ms) ∧
  (hour_of 1541207073796, day_of 1541207073796, week_of 1541207073796,
   month_of 1541207073796, year_of 1541207073796, weekday_of 1541207073796)
  = (1, 3, 44, 11, 2018, 5)%Z.
Proof.
  apply (time_entity_decomposes_timestamp example_read (λ _, True)
           "/data/log_data/a.json" example_log example_cursor).
  - reflexivity.
  - by_computation.
  - by_computation.
  - apply catalog_accepts.
  - exact I.
Defined.

(** C3: on the store of the specification, for every retained event the
    songplay insert carries a non-null (song identifier, artist identifier)
    pair if and only if a stored song and its artist match the event's
    song, artist and length exactly; the pair is then the identifiers of
    such a song and artist, and when no stored pair matches on all three
    fields, both identifiers are null. *)
Theorem song_artist_resolution
    (read_lines : string → option (list (gmap string value)))
    filepath rs (c : cursor tables) :
  read_lines filepath = Some rs →
  has_fields log_fields rs → convertible rs → keyed (conn c) →
  Forall2 (λ (ir : Z * gmap string value) (ids : value * value),
      ((ids.1 ≠ VNull ∧ ids.2 ≠ VNull) ↔ ∃ s a, stored_match (conn c) ir.2 s a) ∧
      ((∀ s a, ¬ stored_match (conn c) ir.2 s a) → ids = (VNull, VNull)) ∧
      ((∃ s a, stored_match (conn c) ir.2 s a) →
         ∃ s a, stored_match (conn c) ir.2 s a ∧ ids = (column s 0, column a 0)))
    (retained rs)
    (songplay_resolved (issued (process_log_file read_lines filepath) c)).
Proof.
  intros Hread Hfields Hconv [Hsongs Hartists].
  destruct (log_file_inserts read_lines
              (λ T', songs T' = songs (conn c) ∧ artists T' = artists (conn c))
              (λ args ids, ids = first_or_null (song_select_rows (conn c) args))
              filepath rs c)
    as (_ & _ & _ & _ & _ & idl & HR & Hp);
    [done|done|done|apply catalog_keeps_songs|apply catalog_answers|done|].
  assert (Hlen : length idl = length (retained rs)).
  { symmetry. by eapply Forall2_length. }
  unfold songplay_resolved. simpl in Hp. rewrite Hp, fmap_zip_with.
  replace (zip_with _ (retained rs) idl) with idl; last first.
  { symmetry. etrans; [|by apply (zip_with_right (retained rs) idl)].
    apply zip_with_ext; [|done..]. by intros ir []. }
  eapply Forall2_impl; [exact HR|]. intros ir ids Hids. simpl in Hids.
  destruct (song_select_resolves (conn c) ir.2 ids Hids)
    as [(s & a & Hm & ->)|[Hnone ->]].
  - assert (Hkeys : column s 0 ≠ VNull ∧ column a 0 ≠ VNull).
    { destruct Hm as (Hs & Ha & _). split.
      - by apply (proj1 (Forall_forall _ _) Hsongs).
      - by apply (proj1 (Forall_forall _ _) Hartists). }
    split_and!; [split; eauto|intros Hno; by destruct (Hno s a)|eauto].
  - split_and!; [split|done|].
    + by intros [Hnull _].
    + intros (s & a & Hm). by destruct (Hnone s a).
    + intros (s & a & Hm). by destruct (Hnone s a).
Qed.

(** C3 on [/data/log_data/a.json] and the store that holds the song [T] of
    [Art]: the first retained event resolves, the second does not. *)
Lemma song_artist_resolution_witness :
  Forall2 (λ (ir : Z * gmap string value) (ids : value * value),
      ((ids.1 ≠ VNull ∧ ids.2 ≠ VNull) ↔
         ∃ s a, stored_match (conn example_cursor) ir.2 s a) ∧
      ((∀ s a, ¬ stored_match (conn example_cursor) ir.2 s a) →
         ids = (VNull, VNull)) ∧
      ((∃ s a, stored_match (conn example_cursor) ir.2 s a) →
         ∃ s a, stored_match (conn example_cursor) ir.2 s a ∧
                ids = (column s 0, column a 0)))
    (retained example_log)
    (songplay_resolved
       (issued (process_log_file example_read "/data/log_data/a.json")
               example_cursor)).
Proof.
  apply (song_artist_resolution example_read "/data/log_data/a.json"
           example_log example_cursor).
  - reflexivity.
  - by_computation.
  - by_computation.
  - split; repeat constructor; discriminate.
Defined.

(** ** The Song Record Extractor *)

(** C6, as the specification states it, fails on a song file whose one
    record writes the title as the text ["1999"] and the longitude as the
    float -74.0: [pd.read_json] types both columns as integers, and the
    inserts carry the integers 1999 and -74, not the fields as they are
    written. *)
Lemma song_file_extraction_counterexample :
  let run := process_song_file (pandas_lines ["year"] example_written)
               "/data/song_data/P/1999.json" in
  example_written "/data/song_data/P/1999.json" = Some [example_numbered] ∧
  example_numbered !! "title" = Some (VStr "1999") ∧
  example_numbered !! "artist_longitude" = Some (VFloat (-4588464332848758784)) ∧
  issued run example_cursor
  = [(song_table_insert,
      [VStr "S1"; VInt 1999; VStr "A1"; VInt 2000; VFloat 4641258483168051200]);
     (artist_table_insert,
      [VStr "A1"; VStr "Art"; VStr "NY"; VFloat 4630924833085561242;
       VInt (-74)])] ∧
  ¬ (issued run example_cursor
     = [(song_table_insert,
         (λ k, default VNull (example_numbered !! k)) <$> song_fields);
        (artist_table_insert,
         (λ k, default VNull (example_numbered !! k)) <$> artist_fields)]).
Proof.
  split_and!.
  - reflexivity.
  - reflexivity.
  - reflexivity.
  - reflexivity.
  - intros Heq. vm_compute in Heq. discriminate Heq.
Qed.

(** C6 (amended): a song file without a record makes the extractor fail,
    and nothing is executed; a song file with one record or more gets
    exactly one song insert and one artist insert, both made of the fields
    of the first record and of no other, as [pd.read_json] typed the
    columns of the file, with [year] cast to an integer: a field is bound
    as it is written when its column holds a text that is no number,
    integers only, or floats with a fractional part, a null or a
    non-finite value among them; and as an integer when every record
    writes an integer as text there, or a whole float.  The inserts are
    stated for files whose nine columns are typed within the fragment of
    [typing_of], with a text among the fields of each insert, and a store
    that accepts the two statements. *)
Theorem song_file_extraction
    {db : Type} `{!Store db} (read_file : string → option (list (gmap string value)))
    (I : db → Prop) filepath rs (c : cursor db) :
  read_file filepath = Some rs →
  let run := process_song_file (pandas_lines ["year"] read_file) filepath in
  (rs = [] → ∃ e, run c = (Raise e, c)) ∧
  (∀ r rest, rs = r :: rest →
     Forall (λ k, carried k rs) (song_fields ++ artist_fields) →
     Forall (λ k, is_Some (typing_of ["year"] rs k)) (song_fields ++ artist_fields) →
     some_text rs song_fields → some_text rs artist_fields →
     accepts song_statements I → I (conn c) →
     (run c).1 = Ok () ∧
     issued run c
     = [(song_table_insert,
         (λ k, typed ["year"] rs k (default VNull (r !! k))) <$> song_fields);
        (artist_table_insert,
         (λ k, typed ["year"] rs k (default VNull (r !! k))) <$> artist_fields)]) ∧
  (∀ k v, k ≠ "year" → Exists text_cell (column_cells rs k) →
     typed ["year"] rs k v = v) ∧
  (∀ k v, Forall int64_cell (column_cells rs k) → typed ["year"] rs k v = v) ∧
  (∀ k v, k ≠ "year" → Forall float_or_null_cell (column_cells rs k) →
     Exists fractional_cell (column_cells rs k) → typed ["year"] rs k v = v) ∧
  (∀ k s n, k ≠ "year" → rs ≠ [] → Forall int_text_cell (column_cells rs k) →
     int_text s = Some n → typed ["year"] rs k (VStr s) = VInt n) ∧
  (∀ k bits z, rs ≠ [] → Forall whole_float_cell (column_cells rs k) →
     integral (binary64 bits) = Some z →
     typed ["year"] rs k (VFloat bits) = VInt z).
Proof.
  intros Hread run. unfold run.
  assert (Hk : ∀ k, k ≠ "year" → k ∉ ["year"]) by (intros k ?; set_unfold; tauto).
  split_and!.
  - intros ->. exists (KeyError "song_id").
    unfold process_song_file, read_json, pandas_lines. by rewrite Hread.
  - intros r rest -> Hcols _ _ _ Hacc HI.
    destruct (process_song_file_run (pandas_lines ["year"] read_file) I filepath
                (map_imap (λ k v, Some (typed ["year"] (r :: rest) k v)) r)
                ((λ r' : gmap string value,
                    map_imap (λ k v, Some (typed ["year"] (r :: rest) k v)) r')
                   <$> rest) c)
      as (c' & Hrun & _ & Hlog); [unfold pandas_lines; by rewrite Hread| |done..|].
    { eapply Forall_impl; [exact Hcols|]. intros k Hcarried.
      apply carried_columns.
      by apply (carried_retyped ["year"] k (r :: rest)). }
    split; [by rewrite Hrun|]. apply issued_app. rewrite Hrun. cbn [snd].
    rewrite Hlog. unfold song_fields, artist_fields. cbn [fmap list_fmap].
    by rewrite !cell_retyped.
  - intros k v Hne. by apply typed_text, Hk.
  - intros k v. apply typed_int64.
  - intros k v Hne. by apply typed_fractional, Hk.
  - intros k s n Hne. by apply typed_int_text, Hk.
  - intros k bits z. apply typed_whole_float.
Qed.

(** C6 (amended) on a song file without a record and on a song file with
    one, whose longitude, the whole float -74.0, is bound as the integer
    -74. *)
Lemma song_file_extraction_witness :
  let read := pandas_lines ["year"] example_written in
  (∃ e, process_song_file read "/data/song_data/none.json" example_cursor
        = (Raise e, example_cursor)) ∧
  (process_song_file read "/data/song_data/A/s1.json" example_cursor).1 = Ok () ∧
  issued (process_song_file read "/data/song_data/A/s1.json") example_cursor
  = [(song_table_insert,
      (λ k, typed ["year"] [example_song] k (default VNull (example_song !! k)))
        <$> song_fields);
     (artist_table_insert,
      (λ k, typed ["year"] [example_song] k (default VNull (example_song !! k)))
        <$> artist_fields)].
Proof.
  split.
  - apply (proj1 (song_file_extraction example_written (λ _, True)
                    "/data/song_data/none.json" [] example_cursor eq_refl)).
    reflexivity.
  - apply (proj1 (proj2 (song_file_extraction example_written (λ _, True)
                    "/data/song_data/A/s1.json" [example_song] example_cursor
                    eq_refl)) example_song []).
    + reflexivity.
    + by_computation.
    + by_computation.
    + by_computation.
    + by_computation.
    + apply catalog_accepts.
    + exact I.
Defined.

(** C9, as the specification states it, fails on the log file with no
    event at all: no event of [/data/log_data/empty.json] is a [NextSong]
    event, and the extractor raises, for the frame of an empty file has no
    [page] column. *)
Lemma quiet_log_file_counterexample :
  example_read "/data/log_data/empty.json" = Some [] ∧
  Forall (λ r, ¬ next_song r) ([] : list (gmap string value)) ∧
  process_log_file example_read "/data/log_data/empty.json" example_cursor
  = (Raise (KeyError "page"), example_cursor).
Proof. split_and!; [reflexivity|constructor|reflexivity]. Qed.

(** C9 (amended): for every log file with at least one event, whose events
    carry the page, the timestamp and the user fields, and none of whose
    events is a [NextSong] event, the extractor completes without error
    and executes no statement, and the loader commits and prints the
    progress line for the file, and goes on with the files after it. *)
Theorem quiet_log_file_is_committed_and_counted
    {db : Type} `{!Store db} (read_lines : string → option (list (gmap string value)))
    filepath r rs (c : cursor db) :
  read_lines filepath = Some (r :: rs) →
  has_fields filter_fields (r :: rs) →
  Forall (λ r, ¬ next_song r) (r :: rs) →
  process_log_file read_lines filepath c = (Ok (), c) ∧
  ∀ num_files i rest (w : session db), cur w = c →
    process_files (process_log_file read_lines) num_files ((i, filepath) :: rest) w
    = process_files (process_log_file read_lines) num_files rest
        (Session (Cursor (db_commit (conn c)) (executed c) (resultset c))
           (trace w ++ [Called filepath; Committed;
                        Printed (pretty i +:+ "/" +:+ pretty num_files
                                 +:+ " files processed.")])).
Proof.
  intros Hread Hfields Hquiet.
  pose proof (quiet_log_file_run read_lines filepath r rs c Hread Hfields Hquiet)
    as Hrun.
  split; [done|]. intros num_files i rest w <-.
  by rewrite (process_files_round _ _ _ _ _ _ _ Hrun).
Qed.

(** C9 (amended) on [/data/quiet/q.json], which holds a [Home] event only. *)
Lemma quiet_log_file_witness :
  process_log_file example_read "/data/quiet/q.json" example_cursor
  = (Ok (), example_cursor) ∧
  ∀ num_files i rest (w : session tables), cur w = example_cursor →
    process_files (process_log_file example_read) num_files
      ((i, "/data/quiet/q.json") :: rest) w
    = process_files (process_log_file example_read) num_files rest
        (Session (Cursor (db_commit (conn example_cursor))
                         (executed example_cursor) (resultset example_cursor))
           (trace w ++ [Called "/data/quiet/q.json"; Committed;
                        Printed (pretty i +:+ "/" +:+ pretty num_files
                                 +:+ " files processed.")])).
Proof.
  apply (quiet_log_file_is_committed_and_counted example_read
           "/data/quiet/q.json" example_home [] example_cursor).
  - reflexivity.
  - by_computation.
  - by_computation.
Defined.

(** ** The File Discoverer and the Loader *)

(** C2, as the specification states it, fails on [data/missing]: nothing
    is at that path, and the loader completes normally, having found no
    file. *)
Lemma missing_root_counterexample :
  example_fs "data/missing" = None ∧
  process_data example_fs example_abspath "data/missing"
    (process_log_file example_read) example_session
  = (Ok (), Session example_cursor [Printed "0 files found in data/missing"]).
Proof. split; reflexivity. Qed.

(** C2 (amended): for every root path at which nothing exists, the
    discovery finds no file: the loader prints that 0 files were found in
    the path, calls no extractor, commits nothing and completes normally. *)
Theorem missing_root_finds_no_file
    {db : Type} `{!Store db} (fs_lookup : string → option fstree)
    (abspath : string → string) root (func : string → M (cursor db) unit)
    (w : session db) :
  fs_lookup root = None →
  discover fs_lookup abspath root = [] ∧
  process_data fs_lookup abspath root func w
  = (Ok (), Session (cur w) (trace w ++ [Printed ("0 files found in " +:+ root)])).
Proof.
  intros Hnone.
  assert (Hd : discover fs_lookup abspath root = []).
  { unfold discover. by rewrite Hnone. }
  split; [done|]. rewrite process_data_unfold, Hd. reflexivity.
Qed.

(** C2 (amended) on [data/missing]. *)
Lemma missing_root_witness :
  discover example_fs example_abspath "data/missing" = [] ∧
  process_data example_fs example_abspath "data/missing"
    (process_log_file example_read) example_session
  = (Ok (), Session (cur example_session)
              (trace example_session ++
               [Printed ("0 files found in " +:+ "data/missing")])).
Proof.
  apply (missing_root_finds_no_file example_fs example_abspath "data/missing"
           (process_log_file example_read) example_session).
  reflexivity.
Defined.

(** C7: the loader takes the discovered files in the order of discovery,
    numbered from 1.  When the first [k] of the [M] files went through,
    the loader has, after the line on the files found, called the
    extractor on each of them in turn, committed after each, and printed
    ["N/M files processed."] after the N-th; with all files through, the
    loader is done; and when the extractor raises on the next file, the
    loader ends with that exception: that file was called, no file after
    it is, and no further line is printed. *)
Theorem loader_progress_in_discovery_order
    {db : Type} `{!Store db} (fs_lookup : string → option fstree)
    (abspath : string → string) root (func : string → M (cursor db) unit)
    (w w1 : session db) (k : nat) :
  let all_files := discover fs_lookup abspath root in
  let num_files := length all_files in
  let found := Printed (pretty num_files +:+ " files found in " +:+ root) in
  process_files func num_files (take k (enumerate all_files))
    (Session (cur w) (trace w ++ [found])) = (Ok (), w1) →
  trace w1
  = trace w ++ found :: concat ((λ idf : nat * string,
      [Called idf.2; Committed;
       Printed (pretty idf.1 +:+ "/" +:+ pretty num_files +:+ " files processed.")])
      <$> take k (enumerate all_files)) ∧
  (∀ i idf, take k (enumerate all_files) !! i = Some idf →
     idf.1 = S i ∧ all_files !! i = Some idf.2) ∧
  ((num_files ≤ k)%nat → process_data fs_lookup abspath root func w = (Ok (), w1)) ∧
  (∀ f e c', all_files !! k = Some f → func f (cur w1) = (Raise e, c') →
     process_data fs_lookup abspath root func w
     = (Raise e, Session c' (trace w1 ++ [Called f]))).
Proof.
  intros all_files num_files found Hrun. split_and!.
  - apply process_files_trace in Hrun. rewrite Hrun. cbn [trace].
    by rewrite <-app_assoc.
  - intros i [n f] Hi. apply lookup_take_Some in Hi as [Hi _].
    rewrite enumerate_lookup in Hi. simpl.
    destruct (all_files !! i) as [f'|]; by simplify_eq/=.
  - intros Hk. rewrite process_data_unfold. fold all_files num_files found.
    rewrite take_ge in Hrun; [done|].
    unfold enumerate. by rewrite length_imap.
  - intros f e c' Hf Hraise. rewrite process_data_unfold.
    fold all_files num_files found.
    assert (Hsplit : enumerate all_files
                     = take k (enumerate all_files)
                       ++ (S k, f) :: drop (S k) (enumerate all_files)).
    { symmetry. apply take_drop_middle. by rewrite enumerate_lookup, Hf. }
    rewrite Hsplit at 1.
    rewrite (process_files_app _ _ _ _ _ _ Hrun).
    by rewrite (process_files_raise _ _ _ _ _ _ _ _ Hraise).
Qed.

(** C7 on [data/log_data], after the first of its three files: the second
    one is not valid JSON. *)
Lemma loader_progress_witness :
  let all_files := discover example_fs example_abspath "data/log_data" in
  let num_files := length all_files in
  let found := Printed (pretty num_files +:+ " files found in " +:+ "data/log_data") in
  trace example_after_first
  = trace example_session ++ found :: concat ((λ idf : nat * string,
      [Called idf.2; Committed;
       Printed (pretty idf.1 +:+ "/" +:+ pretty num_files +:+ " files processed.")])
      <$> take 1 (enumerate all_files)) ∧
  (∀ i idf, take 1 (enumerate all_files) !! i = Some idf →
     idf.1 = S i ∧ all_files !! i = Some idf.2) ∧
  ((num_files ≤ 1)%nat →
     process_data example_fs example_abspath "data/log_data"
       (process_log_file example_read) example_session
     = (Ok (), example_after_first)) ∧
  (∀ f e c', all_files !! 1%nat = Some f →
     process_log_file example_read f (cur example_after_first) = (Raise e, c') →
     process_data example_fs example_abspath "data/log_data"
       (process_log_file example_read) example_session
     = (Raise e, Session c' (trace example_after_first ++ [Called f]))).
Proof.
  apply (loader_progress_in_discovery_order example_fs example_abspath
           "data/log_data" (process_log_file example_read) example_session
           example_after_first 1).
  vm_compute. reflexivity.
Defined.

(** That run in full: the second of the three files is not
    valid JSON; the loader prints the line on the files found, goes
    through the first file, calls the extractor on the second, and ends
    there. *)
Example loader_stops_at_corrupt_file :
  discover example_fs example_abspath "data/log_data"
  = ["/data/log_data/a.json"; "/data/log_data/b.json"; "/data/log_data/c.json"] ∧
  (process_data example_fs example_abspath "data/log_data"
     (process_log_file example_read) example_session).1 = Raise ValueError ∧
  trace (process_data example_fs example_abspath "data/log_data"
           (process_log_file example_read) example_session).2
  = [Printed "3 files found in data/log_data";
     Called "/data/log_data/a.json"; Committed; Printed "1/3 files processed.";
     Called "/data/log_data/b.json"].
Proof. split_and!; reflexivity. Qed.

(** The scenario of the specification, end to end: a song file is loaded
    into an empty store, then a log file with a single [NextSong] event
    for that song; the songplay row carries the identifiers of the song
    and of its artist, and the identifier 1. *)
Example end_to_end_scenario :
  let c1 := (process_song_file example_read "/data/song_data/A/s1.json"
               (Cursor (Tables [] [] [] [] []) [] [])).2 in
  let c2 := (process_log_file example_single "/data/log_data/single.json" c1).2 in
  songplays (conn c2)
  = [[VInt 1; VTime 1541207073796; VStr "8"; VStr "free"; VStr "S1"; VStr "A1";
      VInt 139; VStr "Phoenix-Mesa-Scottsdale, AZ"; VStr "Mozilla/5.0"]].
Proof. reflexivity. Qed.

(** ** Further properties: the failure paths of the Event Record Extractor *)

Lemma getitem_raise df k : k ∉ columns df → getitem df k = Raise (KeyError k).
Proof. intros Hk. unfold getitem. by rewrite decide_False. Qed.

Lemma getattr_raise df row k :
  k ∉ columns df → getattr df row k = Raise (AttributeError k).
Proof. intros Hk. unfold getattr. by rewrite decide_False. Qed.

(** A selection of columns raises on the first listed column that the
    frame does not have. *)
Lemma getitem_list_raise df cs :
  ¬ Forall (λ k, k ∈ columns df) cs →
  ∃ k, k ∈ cs ∧ (k ∉ columns df) ∧ getitem_list df cs = Raise (KeyError k).
Proof.
  intros Hnot. unfold getitem_list.
  destruct (filter (λ c, c ∉ columns df) cs) as [|k l] eqn:Hf.
  - destruct Hnot. apply Forall_forall. intros k Hk.
    destruct (decide (k ∈ columns df)) as [|Hn]; [done|].
    assert (Hin : k ∈ filter (λ c, c ∉ columns df) cs)
      by (by apply list_elem_of_filter).
    rewrite Hf in Hin. by apply not_elem_of_nil in Hin.
  - exists k. assert (Hin : k ∈ filter (λ c, c ∉ columns df) cs)
      by (rewrite Hf; apply list_elem_of_here).
    apply list_elem_of_filter in Hin as [Hn Hin]. done.
Qed.

(** The conversion of a column raises the error of its first cell that
    cannot be converted. *)
Lemma to_datetime_raise (l : list (Z * gmap string value)) :
  ¬ Forall (λ ir, is_ok (to_datetime_ms (cell ir.2 "ts"))) l →
  ∃ ir e, ir ∈ l ∧ to_datetime_ms (cell ir.2 "ts") = Raise e ∧
          to_datetime ((λ ir, (ir.1, cell ir.2 "ts")) <$> l) = Raise e.
Proof.
  unfold to_datetime. induction l as [|ir l IH]; intros Hnot.
  - destruct Hnot. constructor.
  - rewrite fmap_cons. cbn [omap fst snd].
    destruct (to_datetime_ms (cell ir.2 "ts")) as [t|e] eqn:Ht.
    + destruct IH as (ir' & e & Hin & He & Hraise).
      { intros Hall. apply Hnot. constructor; [by rewrite Ht|done]. }
      exists ir', e. split_and!; [by apply list_elem_of_further|done|].
      cbn [obind]. by rewrite Hraise.
    + exists ir, e. split_and!; [apply list_elem_of_here|done..].
Qed.

Section log_tail_facts.
Context {db : Type} `{!Store db}.
Variable read_lines : string → option (list (gmap string value)).

(** Up to its filter, [process_log_file] reads the file and the [page]
    column; the rest runs on the filtered frame. *)
Lemma process_log_file_tail filepath (c : cursor db) :
  process_log_file read_lines filepath c =
  match read_lines filepath with
  | None => (Raise ValueError, c)
  | Some rs =>
      if decide (carried "page" rs) then log_tail (filtered rs) c
      else (Raise (KeyError "page"), c)
  end.
Proof.
  unfold process_log_file, read_json.
  destruct (read_lines filepath) as [rs|]; [|done].
  rewrite bind_lift_ok. case_decide as Hpage.
  - apply carried_columns in Hpage.
    rewrite getitem_ok, bind_lift_ok by done.
    replace (select _ _) with (filtered rs); [done|].
    unfold filtered, select. f_equal. symmetry.
    apply (rows_select_eq (from_records rs) "page" (VStr "NextSong")).
  - rewrite carried_columns in Hpage. by rewrite getitem_raise.
Qed.
End log_tail_facts.

Section log_failure_paths.
Context {db : Type} `{!Store db}.
Variable read_lines : string → option (list (gmap string value)).
Implicit Types (I : db → Prop) (c : cursor db).

(** The run of the rest of [process_log_file] on a frame that has the
    columns it reads. *)
Lemma log_tail_run I R rs c :
  Forall (λ k, carried k rs) (filter_fields ++ songplay_fields) →
  convertible rs →
  accepts log_statements I → answers I R → I (conn c) →
  ∃ c' idl,
    log_tail (filtered rs) c = (Ok (), c') ∧ I (conn c') ∧
    Forall2 (λ ir ids, R (select_args ir.2) ids) (retained rs) idl ∧
    executed c' = executed c ++ log_calls (retained rs) idl.
Proof.
  intros Hcols Hconv Hacc Hans HI. apply carried_all in Hcols.
  change (columns (from_records rs)) with (columns (filtered rs)) in Hcols.
  unfold convertible in Hconv.
  change (retained rs) with (rows (filtered rs)) in Hconv |- *.
  set (df1 := filtered rs) in *. clearbody df1.
  apply Forall_app in Hcols as [Hfilter Hplay].
  unfold filter_fields in Hfilter. rewrite !Forall_cons in Hfilter.
  destruct Hfilter as (_ & Hts & Huser).
  unfold log_tail. rewrite !getitem_ok by done.
  rewrite (getitem_list_ok df1) by done.
  rewrite bind_lift_ok, to_datetime_column, bind_lift_ok by done.
  rewrite <-list_fmap_compose.
  destruct (for_each_execute log_statements I time_table_insert
              (λ ir : Z * gmap string value, time_args ir.2) (rows df1) c)
    as (c1 & Hrun1 & HI1 & Hlog1);
    [done|unfold log_statements; set_unfold; tauto|done|].
  rewrite for_each_fmap. erewrite bind_run_ok; [|exact Hrun1].
  rewrite bind_lift_ok, for_each_fmap.
  destruct (for_each_execute log_statements I user_table_insert
              (λ ir : Z * gmap string value, user_args ir.2) (rows df1) c1)
    as (c2 & Hrun2 & HI2 & Hlog2);
    [done|unfold log_statements; set_unfold; tauto|done|].
  erewrite bind_run_ok; [|exact Hrun2].
  rewrite bind_lift_ok, to_datetime_column, bind_lift_ok by done.
  rewrite setitem_rows.
  destruct (songplay_loop I R (setitem df1 "ts"
              ((λ ir, (ir.1, start_time ir.2)) <$> rows df1)) (rows df1) c2
              Hacc Hans HI2) as (c3 & idl & Hrun3 & HI3 & HR & Hlog3).
  { simpl. eapply Forall_impl; [exact Hplay|].
    intros k Hk. apply elem_of_union. by right. }
  exists c3, idl. split_and!; [done..|].
  rewrite Hlog3, Hlog2, Hlog1. unfold log_calls. by rewrite <-!app_assoc.
Qed.

(** X1.  process_log_file, whole run: on a file whose records carry,
    between them, every field that the function reads, with convertible
    timestamps on its NextSong events, and a store that accepts the four
    statements, the function returns normally and issues, in this order:
    one time insert per retained event, then one user insert per retained
    event, then for each retained event its lookup followed at once by
    its songplay insert.  No field has to be present in every record. *)
Theorem log_file_call_sequence I filepath rs c :
  read_lines filepath = Some rs →
  Forall (λ k, carried k rs) log_fields → convertible rs →
  accepts log_statements I → I (conn c) →
  let run := process_log_file read_lines filepath in
  (run c).1 = Ok () ∧
  ∃ idl, length idl = length (retained rs) ∧
         issued run c = log_calls (retained rs) idl.
Proof.
  intros Hread Hcols Hconv Hacc HI run. unfold run.
  assert (Hpage : carried "page" rs).
  { unfold log_fields in Hcols. by apply Forall_cons in Hcols as [? _]. }
  destruct (log_tail_run I (λ _ _, True) rs c) as (c' & idl & Hrun & _ & HR & Hlog);
    [|done..|].
  { rewrite Forall_forall in Hcols. apply Forall_forall. intros k Hk.
    apply Hcols. revert Hk.
    unfold filter_fields, user_fields, songplay_fields, log_fields.
    set_unfold. tauto. }
  rewrite process_log_file_tail, Hread, decide_True, Hrun by done.
  split; [done|]. exists idl. split.
  - symmetry. by eapply Forall2_length.
  - apply issued_app. by rewrite process_log_file_tail, Hread, decide_True, Hrun.
Qed.

(** X2.  process_log_file, key columns: when no record of the file
    carries [page], or none carries [ts], the function raises KeyError for
    that column ([page] first) and has executed nothing. *)
Theorem log_file_missing_key_column filepath rs c :
  read_lines filepath = Some rs →
  ¬ (carried "page" rs ∧ carried "ts" rs) →
  process_log_file read_lines filepath c
  = (Raise (KeyError (if decide (carried "page" rs) then "ts" else "page")), c).
Proof.
  intros Hread Hnot. rewrite process_log_file_tail, Hread.
  case_decide as Hpage; [|done].
  unfold log_tail. rewrite getitem_raise; [done|].
  change (columns (filtered rs)) with (columns (from_records rs)).
  rewrite <-carried_columns. tauto.
Qed.

(** X3.  process_log_file, timestamps: on a file in which every event has
    a 64-bit integer [ts] (pandas types the column as such), when the
    [ts] of a NextSong event is beyond the range of a pandas timestamp
    (and is not the integer that pandas reads as NaT), the function raises
    OutOfBoundsDatetime before any statement is executed: no row of the
    file is loaded. *)
Theorem log_file_bad_timestamp filepath rs c :
  read_lines filepath = Some rs →
  carried "page" rs →
  Forall (λ r : gmap string value, int64_cell (cell r "ts")) rs →
  Exists (λ ir : Z * gmap string value, out_of_range (cell ir.2 "ts"))
         (retained rs) →
  process_log_file read_lines filepath c = (Raise OutOfBoundsDatetime, c).
Proof.
  intros Hread Hpage Hint Hbad.
  assert (Hts : carried "ts" rs).
  { apply Exists_exists in Hbad as (ir & Hin & Hir).
    apply retained_label in Hin as [_ Hin].
    apply Exists_exists. exists ir.2. split; [by eapply list_elem_of_lookup_2|].
    unfold cell in Hir. destruct (ir.2 !! "ts"); [by eexists|done]. }
  assert (Hnot : ¬ convertible rs).
  { unfold convertible. intros Hall.
    apply Exists_exists in Hbad as (ir & Hin & Hir).
    rewrite Forall_forall in Hall. specialize (Hall ir Hin).
    unfold out_of_range in Hir. unfold to_datetime_ms in Hall.
    destruct (cell ir.2 "ts") as [|ms| | |]; try done. destruct Hir as [Hnat Hout].
    by rewrite bool_decide_false, bool_decide_false in Hall. }
  destruct (to_datetime_raise (retained rs) Hnot) as (ir & e & Hin & He & Hraise).
  assert (e = OutOfBoundsDatetime) as ->.
  { apply retained_label in Hin as [_ Hin].
    apply list_elem_of_lookup_2 in Hin.
    rewrite Forall_forall in Hint. specialize (Hint _ Hin).
    unfold int64_cell in Hint. unfold to_datetime_ms in He.
    destruct (cell ir.2 "ts") as [|ms| | |]; try done.
    repeat case_bool_decide; by simplify_eq. }
  rewrite process_log_file_tail, Hread, decide_True by done.
  unfold log_tail. rewrite getitem_ok by (by apply carried_columns).
  rewrite bind_lift_ok.
  change (rows (filtered rs)) with (retained rs). by rewrite Hraise.
Qed.

(** X4.  process_log_file, user columns: when a user field is carried by
    no record, the function raises KeyError for such a field, after it has
    executed the time inserts of all retained events and nothing else.
    This holds also for a file without NextSong events. *)
Theorem log_file_missing_user_column I filepath rs c :
  read_lines filepath = Some rs →
  carried "page" rs → carried "ts" rs → convertible rs →
  accepts [time_table_insert] I → I (conn c) →
  ¬ Forall (λ k, carried k rs) user_fields →
  let run := process_log_file read_lines filepath in
  ∃ k, k ∈ user_fields ∧ ¬ carried k rs ∧
       (run c).1 = Raise (KeyError k) ∧
       issued run c = (λ ir, (time_table_insert, time_args ir.2)) <$> retained rs.
Proof.
  intros Hread Hpage Hts Hconv Hacc HI Hnot run. unfold run.
  rewrite carried_all in Hnot.
  destruct (getitem_list_raise (filtered rs) user_fields Hnot)
    as (k & Hk & Hmiss & Hraise).
  exists k. split; [done|]. split; [by rewrite carried_columns|].
  destruct (for_each_execute [time_table_insert] I time_table_insert
              (λ ir : Z * gmap string value, time_args ir.2) (retained rs) c)
    as (c1 & Hrun1 & HI1 & Hlog1); [done|apply list_elem_of_here|done|].
  assert (Hrun : process_log_file read_lines filepath c = (Raise (KeyError k), c1)).
  { rewrite process_log_file_tail, Hread, decide_True by done.
    unfold log_tail. rewrite getitem_ok by (by apply carried_columns).
    rewrite bind_lift_ok.
    change (rows (filtered rs)) with (retained rs).
    rewrite to_datetime_column, bind_lift_ok by done.
    rewrite <-list_fmap_compose, for_each_fmap.
    erewrite bind_run_ok; [|exact Hrun1].
    fold user_fields. by rewrite Hraise. }
  split; [by rewrite Hrun|]. apply issued_app. by rewrite Hrun.
Qed.

(** X5.  process_log_file, song columns: when the file has NextSong
    events and one of [song], [artist], [length] is carried by no record,
    the function raises AttributeError for the first such field in the
    first round of its last loop: the time inserts and the user inserts of
    all retained events are executed, and no lookup and no songplay insert
    is. *)
Theorem log_file_missing_song_column I filepath rs c :
  read_lines filepath = Some rs →
  Forall (λ k, carried k rs) filter_fields → convertible rs →
  retained rs ≠ [] →
  accepts [time_table_insert; user_table_insert] I → I (conn c) →
  ¬ Forall (λ k, carried k rs) ["song"; "artist"; "length"] →
  let run := process_log_file read_lines filepath in
  ∃ k, k ∈ ["song"; "artist"; "length"] ∧ ¬ carried k rs ∧
       (run c).1 = Raise (AttributeError k) ∧
       issued run c
       = ((λ ir, (time_table_insert, time_args ir.2)) <$> retained rs)
         ++ ((λ ir, (user_table_insert, user_args ir.2)) <$> retained rs).
Proof.
  intros Hread Hcols Hconv Hne Hacc HI Hnot run. unfold run.
  pose proof Hcols as Hcarried. apply carried_all in Hcols.
  unfold filter_fields in Hcols, Hcarried. rewrite !Forall_cons in Hcols, Hcarried.
  destruct Hcols as (_ & Hts & Huser). destruct Hcarried as (Hpage & _).
  destruct (for_each_execute [time_table_insert; user_table_insert] I
              time_table_insert
              (λ ir : Z * gmap string value, time_args ir.2) (retained rs) c)
    as (c1 & Hrun1 & HI1 & Hlog1); [done|set_unfold; tauto|done|].
  destruct (for_each_execute [time_table_insert; user_table_insert] I
              user_table_insert
              (λ ir : Z * gmap string value, user_args ir.2) (retained rs) c1)
    as (c2 & Hrun2 & HI2 & Hlog2); [done|set_unfold; tauto|done|].
  assert (Hstep : ∃ k, k ∈ ["song"; "artist"; "length"] ∧ ¬ carried k rs ∧
            ∀ df1 ir l, columns df1 = {["ts"]} ∪ columns (from_records rs) →
              for_each (λ irow, songplay_step df1 irow.1 irow.2) (ir :: l) c2
              = (Raise (AttributeError k), c2)).
  { assert (Hin : ∀ k df1, columns df1 = {["ts"]} ∪ columns (from_records rs) →
              carried k rs → k ∈ columns df1).
    { intros k df1 Hdf Hk. rewrite Hdf. apply elem_of_union. right.
      by apply carried_columns. }
    assert (Hout : ∀ k df1, columns df1 = {["ts"]} ∪ columns (from_records rs) →
              k ≠ "ts" → ¬ carried k rs → k ∉ columns df1).
    { intros k df1 Hdf Hk Hn. rewrite Hdf, carried_columns in *.
      set_unfold. tauto. }
    destruct (decide (carried "song" rs)) as [Hsong|Hsong];
      [destruct (decide (carried "artist" rs)) as [Hartist|Hartist];
       [destruct (decide (carried "length" rs)) as [Hlength|Hlength]|]|].
    - destruct Hnot. by repeat constructor.
    - exists "length". split; [set_unfold; tauto|]. split; [done|].
      intros df1 ir l Hdf. cbn [for_each]. unfold songplay_step.
      rewrite !getattr_ok by eauto. rewrite !bind_lift_ok.
      by rewrite getattr_raise by eauto.
    - exists "artist". split; [set_unfold; tauto|]. split; [done|].
      intros df1 ir l Hdf. cbn [for_each]. unfold songplay_step.
      rewrite !getattr_ok by eauto. rewrite !bind_lift_ok.
      by rewrite getattr_raise by eauto.
    - exists "song". split; [set_unfold; tauto|]. split; [done|].
      intros df1 ir l Hdf. cbn [for_each]. unfold songplay_step.
      by rewrite getattr_raise by eauto. }
  destruct Hstep as (k & Hk & Hmiss & Hstep).
  exists k. split; [done|]. split; [done|].
  assert (Hrun : process_log_file read_lines filepath c
                 = (Raise (AttributeError k), c2)).
  { rewrite process_log_file_tail, Hread, decide_True by done.
    unfold log_tail. rewrite !getitem_ok by done.
    rewrite (getitem_list_ok (filtered rs)) by done.
    change (rows (filtered rs)) with (retained rs).
    rewrite bind_lift_ok, to_datetime_column, bind_lift_ok by done.
    rewrite <-list_fmap_compose, for_each_fmap.
    erewrite bind_run_ok; [|exact Hrun1].
    rewrite bind_lift_ok, for_each_fmap.
    erewrite bind_run_ok; [|exact Hrun2].
    rewrite bind_lift_ok, to_datetime_column, bind_lift_ok by done.
    pose proof (setitem_rows (filtered rs) "ts" start_time) as Hrows.
    change (rows (filtered rs)) with (retained rs) in Hrows. rewrite Hrows.
    destruct (retained rs) as [|ir l]; [done|].
    rewrite fmap_cons. by apply Hstep. }
  split; [by rewrite Hrun|]. apply issued_app.
  rewrite Hrun. cbn [snd]. by rewrite Hlog2, Hlog1, <-app_assoc.
Qed.
End log_failure_paths.

Lemma log_file_call_sequence_witness :
  let rs := [delete "song" example_home; example_play] in
  let run := process_log_file (example_file "events.json" rs) "events.json" in
  (run example_cursor).1 = Ok () ∧
  ∃ idl, length idl = length (retained rs) ∧
         issued run example_cursor = log_calls (retained rs) idl.
Proof.
  apply (log_file_call_sequence (example_file "events.json" _) (λ _, True)
           "events.json" [delete "song" example_home; example_play] example_cursor).
  - reflexivity.
  - by_computation.
  - by_computation.
  - apply catalog_accepts.
  - exact I.
Defined.

Lemma log_file_missing_key_column_witness :
  process_log_file (example_file "events.json" (example_without "ts"))
    "events.json" example_cursor
  = (Raise (KeyError "ts"), example_cursor).
Proof.
  apply (log_file_missing_key_column (example_file "events.json" _)
           "events.json" (example_without "ts") example_cursor).
  - reflexivity.
  - by_computation.
Defined.

Lemma log_file_bad_timestamp_witness :
  process_log_file (example_file "events.json" example_late)
    "events.json" example_cursor
  = (Raise OutOfBoundsDatetime, example_cursor).
Proof.
  apply (log_file_bad_timestamp (example_file "events.json" _)
           "events.json" example_late example_cursor).
  - reflexivity.
  - by_computation.
  - by_computation.
  - by_computation.
Defined.

Lemma log_file_missing_user_column_witness :
  let rs := example_without "gender" in
  let run := process_log_file (example_file "events.json" rs) "events.json" in
  ∃ k, k ∈ user_fields ∧ ¬ carried k rs ∧
       (run example_cursor).1 = Raise (KeyError k) ∧
       issued run example_cursor
       = (λ ir, (time_table_insert, time_args ir.2)) <$> retained rs.
Proof.
  apply (log_file_missing_user_column (example_file "events.json" _) (λ _, True)
           "events.json" (example_without "gender") example_cursor).
  - reflexivity.
  - by_computation.
  - by_computation.
  - by_computation.
  - apply catalog_accepts.
  - exact I.
  - by_computation.
Defined.

Lemma log_file_missing_song_column_witness :
  let rs := example_without "artist" in
  let run := process_log_file (example_file "events.json" rs) "events.json" in
  ∃ k, k ∈ ["song"; "artist"; "length"] ∧ ¬ carried k rs ∧
       (run example_cursor).1 = Raise (AttributeError k) ∧
       issued run example_cursor
       = ((λ ir, (time_table_insert, time_args ir.2)) <$> retained rs)
         ++ ((λ ir, (user_table_insert, user_args ir.2)) <$> retained rs).
Proof.
  apply (log_file_missing_song_column (example_file "events.json" _) (λ _, True)
           "events.json" (example_without "artist") example_cursor).
  - reflexivity.
  - by_computation.
  - by_computation.
  - by_computation.
  - apply catalog_accepts.
  - exact I.
  - by_computation.
Defined.

Section log_late_failure.
Context {db : Type} `{!Store db}.
Variable read_lines : string → option (list (gmap string value)).
Implicit Types (I : db → Prop) (c : cursor db).

(** The first round of the songplay loop on a frame that lacks one of the
    last three columns of the songplay row: the lookup is executed and its
    answer fetched before the row is found incomplete. *)
Lemma songplay_step_incomplete I df index (row : gmap string value) c :
  Forall (λ k, k ∈ columns df) ["song"; "artist"; "length"; "ts"; "userId"; "level"] →
  ¬ Forall (λ k, k ∈ columns df) ["sessionId"; "location"; "userAgent"] →
  accepts [song_select] I → I (conn c) →
  ∃ k c', k ∈ ["sessionId"; "location"; "userAgent"] ∧ (k ∉ columns df) ∧
    songplay_step df index row c = (Raise (AttributeError k), c') ∧
    executed c' = executed c ++
      [(song_select, [cell row "song"; cell row "artist"; cell row "length"])].
Proof.
  intros Hcols Hnot Hacc HI. rewrite !Forall_cons in Hcols.
  destruct Hcols as (?&?&?&?&?&?&_).
  destruct (execute_accepted [song_select] I song_select
              [cell row "song"; cell row "artist"; cell row "length"] c)
    as (c1 & Hex & _ & Hlog); [done|apply list_elem_of_here|done|].
  assert (Hfetch : ∃ r c2, fetchone c1 = (Ok r, c2) ∧ executed c2 = executed c1).
  { unfold fetchone. destruct (resultset c1); eauto. }
  destruct Hfetch as (r & c2 & Hfetch & Hlog2).
  assert (Hrun : ∀ k, k ∉ columns df →
            (k = "sessionId" ∨
             "sessionId" ∈ columns df ∧
             (k = "location" ∨ "location" ∈ columns df ∧ k = "userAgent")) →
            songplay_step df index row c = (Raise (AttributeError k), c2)).
  { intros k Hmiss Hk. unfold songplay_step.
    rewrite !getattr_ok by done. rewrite !bind_lift_ok.
    erewrite bind_run_ok; [|exact Hex]. erewrite bind_run_ok; [|exact Hfetch].
    cbv zeta. rewrite !bind_lift_ok.
    destruct Hk as [->|[Hs [->|[Hl ->]]]].
    - by rewrite getattr_raise.
    - rewrite (getattr_ok df row "sessionId"), bind_lift_ok by done.
      by rewrite getattr_raise.
    - rewrite (getattr_ok df row "sessionId"), bind_lift_ok by done.
      rewrite (getattr_ok df row "location"), bind_lift_ok by done.
      by rewrite getattr_raise. }
  destruct (decide ("sessionId" ∈ columns df)) as [Hs|Hs];
    [destruct (decide ("location" ∈ columns df)) as [Hl|Hl];
     [destruct (decide ("userAgent" ∈ columns df)) as [Hu|Hu]|]|].
  - destruct Hnot. by repeat constructor.
  - exists "userAgent", c2.
    split_and!; [set_unfold; tauto|done|apply Hrun; tauto|by rewrite Hlog2].
  - exists "location", c2.
    split_and!; [set_unfold; tauto|done|apply Hrun; tauto|by rewrite Hlog2].
  - exists "sessionId", c2.
    split_and!; [set_unfold; tauto|done|apply Hrun; tauto|by rewrite Hlog2].
Qed.
(** X6.  process_log_file, last columns: when the file has NextSong
    events and one of [sessionId], [location], [userAgent] is carried by
    no record, the function raises AttributeError for the first such field
    in the first round of its last loop, after the lookup of that round:
    the time inserts and the user inserts of all retained events and the
    lookup of the first retained event are executed, and no songplay insert
    is. *)
Theorem log_file_incomplete_songplay I filepath rs c ir l :
  read_lines filepath = Some rs →
  Forall (λ k, carried k rs) (filter_fields ++ ["song"; "artist"; "length"]) →
  convertible rs → retained rs = ir :: l →
  accepts [time_table_insert; user_table_insert; song_select] I → I (conn c) →
  ¬ Forall (λ k, carried k rs) ["sessionId"; "location"; "userAgent"] →
  let run := process_log_file read_lines filepath in
  ∃ k, k ∈ ["sessionId"; "location"; "userAgent"] ∧ ¬ carried k rs ∧
       (run c).1 = Raise (AttributeError k) ∧
       issued run c
       = ((λ ir, (time_table_insert, time_args ir.2)) <$> retained rs)
         ++ ((λ ir, (user_table_insert, user_args ir.2)) <$> retained rs)
         ++ [(song_select, select_args ir.2)].
Proof.
  intros Hread Hcols Hconv Hkept Hacc HI Hnot run. unfold run.
  pose proof Hcols as Hcarried. apply carried_all in Hcols.
  apply Forall_app in Hcols as [Hfilter Hsong].
  apply Forall_app in Hcarried as [Hcarried _].
  unfold filter_fields in Hfilter, Hcarried.
  rewrite !Forall_cons in Hfilter, Hcarried.
  destruct Hfilter as (_ & Hts & Huser). destruct Hcarried as (Hpage & _).
  rewrite carried_all in Hnot.
  destruct (for_each_execute [time_table_insert; user_table_insert; song_select] I
              time_table_insert
              (λ ir : Z * gmap string value, time_args ir.2) (retained rs) c)
    as (c1 & Hrun1 & HI1 & Hlog1); [done|set_unfold; tauto|done|].
  destruct (for_each_execute [time_table_insert; user_table_insert; song_select] I
              user_table_insert
              (λ ir : Z * gmap string value, user_args ir.2) (retained rs) c1)
    as (c2 & Hrun2 & HI2 & Hlog2); [done|set_unfold; tauto|done|].
  set (df1 := setitem (filtered rs) "ts"
                ((λ ir, (ir.1, start_time ir.2)) <$> retained rs)).
  destruct (songplay_step_incomplete I df1 ir.1 (<["ts" := start_time ir.2]> ir.2) c2)
    as (k & c3 & Hk & Hmiss & Hstep & Hlog3); [| | |done|].
  { unfold user_fields in Huser. rewrite !Forall_cons in Hsong.
    rewrite !Forall_cons in Huser.
    destruct Hsong as (?&?&?&_). destruct Huser as (?&_&_&_&?&_).
    unfold df1. simpl. rewrite !Forall_cons.
    split_and!; try done; apply elem_of_union;
      first [by right | left; by apply elem_of_singleton]. }
  { intros Hall. apply Hnot. eapply Forall_impl; [exact Hall|].
    intros k Hk. unfold df1 in Hk. simpl in Hk.
    apply elem_of_union in Hk as [->%elem_of_singleton|Hk]; done. }
  { intros q args d Hq. apply Hacc. set_unfold. tauto. }
  exists k. split; [done|]. split.
  { rewrite carried_columns. intros Hin. apply Hmiss. simpl.
    apply elem_of_union. by right. }
  assert (Hrun : process_log_file read_lines filepath c
                 = (Raise (AttributeError k), c3)).
  { rewrite process_log_file_tail, Hread, decide_True by done.
    unfold log_tail. rewrite !getitem_ok by done.
    rewrite (getitem_list_ok (filtered rs)) by done.
    change (rows (filtered rs)) with (retained rs).
    rewrite bind_lift_ok, to_datetime_column, bind_lift_ok by done.
    rewrite <-list_fmap_compose, for_each_fmap.
    erewrite bind_run_ok; [|exact Hrun1].
    rewrite bind_lift_ok, for_each_fmap.
    erewrite bind_run_ok; [|exact Hrun2].
    rewrite bind_lift_ok, to_datetime_column, bind_lift_ok by done.
    pose proof (setitem_rows (filtered rs) "ts" start_time) as Hrows.
    change (rows (filtered rs)) with (retained rs) in Hrows. rewrite Hrows.
    fold df1. rewrite Hkept, fmap_cons. cbn [for_each fst snd].
    unfold bind at 1. by rewrite Hstep. }
  split; [by rewrite Hrun|]. apply issued_app.
  rewrite Hrun. cbn [snd]. rewrite Hlog3, Hlog2, Hlog1, <-!app_assoc.
  unfold select_args, cell. by rewrite !lookup_insert_ne.
Qed.
End log_late_failure.

Lemma log_file_incomplete_songplay_witness :
  let rs := example_without "location" in
  let run := process_log_file (example_file "events.json" rs) "events.json" in
  ∃ k, k ∈ ["sessionId"; "location"; "userAgent"] ∧ ¬ carried k rs ∧
       (run example_cursor).1 = Raise (AttributeError k) ∧
       issued run example_cursor
       = ((λ ir, (time_table_insert, time_args ir.2)) <$> retained rs)
         ++ ((λ ir, (user_table_insert, user_args ir.2)) <$> retained rs)
         ++ [(song_select, select_args (delete "location" example_play))].
Proof.
  refine (log_file_incomplete_songplay
            (example_file "events.json" (example_without "location")) (λ _, True)
            "events.json" (example_without "location") example_cursor
            (1%Z, delete "location" example_play)
            [(2%Z, delete "location" example_other)] _ _ _ _ _ _ _).
  - reflexivity.
  - by_computation.
  - by_computation.
  - reflexivity.
  - apply catalog_accepts.
  - exact I.
  - by_computation.
Defined.

(** ** Further properties: what the extractors execute *)

Section footprints.
Context {db : Type} `{!Store db}.
Implicit Types (qs : list statement).

(** A frame that was read has a row as soon as it has a column. *)
Lemma first_values_read rs cs k :
  k ∈ columns (from_records rs) →
  ∃ r rs', rs = r :: rs' ∧
    first_values ((λ ir : Z * gmap string value, (ir.1, cell ir.2 <$> cs))
                    <$> rows (from_records rs)) = Ok (cell r <$> cs).
Proof.
  destruct rs as [|r rs']; [intros Hk; by apply columns_empty in Hk|].
  intros _. by exists r, rs'.
Qed.

Lemma appends_lift qs {A} (o : outcome A) : appends (db := db) qs (lift o).
Proof. intros c. exists []. by rewrite app_nil_r. Qed.

Lemma appends_bind qs {A B} (m : M (cursor db) A) (k : A → M (cursor db) B) :
  appends qs m → (∀ a, appends qs (k a)) → appends qs (bind m k).
Proof.
  intros Hm Hk c. unfold bind. destruct (Hm c) as (l1 & Hlog1 & Hin1).
  destruct (m c) as [[a|e] c1]; [|by exists l1].
  destruct (Hk a c1) as (l2 & Hlog2 & Hin2). exists (l1 ++ l2).
  split; [|by apply Forall_app].
  rewrite Hlog2. simpl in Hlog1. by rewrite Hlog1, <-app_assoc.
Qed.

Lemma appends_for_each qs {A} (body : A → M (cursor db) unit) l :
  (∀ x, appends qs (body x)) → appends qs (for_each body l).
Proof.
  intros Hbody. induction l as [|x l IH].
  - intros c. exists []. by rewrite app_nil_r.
  - apply appends_bind; [apply Hbody|done].
Qed.

Lemma appends_execute qs q args : q ∈ qs → appends qs (execute (db := db) q args).
Proof.
  intros Hq c. exists [(q, args)]. split; [|by repeat constructor].
  unfold execute. by destruct (db_execute q args (conn c)) as [[d rs]|].
Qed.

Lemma appends_fetchone qs : appends qs (fetchone (db := db)).
Proof.
  intros c. exists []. rewrite app_nil_r. split; [|done].
  unfold fetchone. by destruct (resultset c).
Qed.
End footprints.

Section extractor_outcomes.
Context {db : Type} `{!Store db}.
Variable read_lines : string → option (list (gmap string value)).
Implicit Types (I : db → Prop).

Lemma process_song_file_appends filepath :
  appends song_statements (process_song_file (db := db) read_lines filepath).
Proof.
  unfold process_song_file.
  repeat (apply appends_bind; [|intros ?]); try apply appends_lift;
    apply appends_execute; unfold song_statements; set_unfold; tauto.
Qed.

Lemma songplay_step_appends df index row :
  appends log_statements (songplay_step (db := db) df index row).
Proof.
  unfold songplay_step. cbv zeta.
  repeat (apply appends_bind; [|intros ?]);
    try apply appends_lift; try apply appends_fetchone;
    apply appends_execute; unfold log_statements; set_unfold; tauto.
Qed.

Lemma process_log_file_appends filepath :
  appends log_statements (process_log_file (db := db) read_lines filepath).
Proof.
  unfold process_log_file. cbv zeta.
  repeat (apply appends_bind; [|intros ?]); try apply appends_lift;
    apply appends_for_each; intros ?;
    [apply appends_execute; unfold log_statements; set_unfold; tauto..
    |apply songplay_step_appends].
Qed.

(** The start of [process_song_file], up to its first statement. *)
Lemma process_song_file_first filepath rs (c : cursor db) :
  read_lines filepath = Some rs →
  Forall (λ k, carried k rs) song_fields →
  process_song_file read_lines filepath c
  = bind (execute song_table_insert
            (cell (first_record read_lines filepath) <$> song_fields))
      (λ _, artist_rows <- lift (getitem_list (from_records rs) artist_fields) ;;
            artist_data <- lift (first_values artist_rows) ;;
            execute artist_table_insert artist_data) c.
Proof.
  intros Hread Hsong. apply carried_all in Hsong.
  unfold process_song_file, read_json, first_record. rewrite Hread, bind_lift_ok.
  fold song_fields artist_fields. rewrite (getitem_list_ok _ song_fields Hsong).
  rewrite bind_lift_ok.
  destruct (first_values_read rs song_fields "song_id") as (r & rs' & -> & Hfirst).
  { unfold song_fields in Hsong. by apply Forall_cons in Hsong as [? _]. }
  by rewrite Hfirst.
Qed.

(** X7.  process_song_file, song columns: when a field of the song row
    is carried by no record of the file (an empty file carries none), the
    function raises KeyError for such a field and has executed nothing. *)
Theorem song_file_without_song_column filepath rs (c : cursor db) :
  read_lines filepath = Some rs →
  ¬ Forall (λ k, carried k rs) song_fields →
  ∃ k, k ∈ song_fields ∧ ¬ carried k rs ∧
       process_song_file read_lines filepath c = (Raise (KeyError k), c).
Proof.
  intros Hread Hnot. rewrite carried_all in Hnot.
  destruct (getitem_list_raise _ _ Hnot) as (k & Hk & Hmiss & Hraise).
  exists k. split; [done|]. split; [by rewrite carried_columns|].
  unfold process_song_file, read_json. rewrite Hread, bind_lift_ok.
  fold song_fields. by rewrite Hraise.
Qed.

(** X8.  process_song_file, artist columns: when the song fields are
    there and a field of the artist row is carried by no record, the
    function raises KeyError for such a field after the song insert has
    been executed: the song is handed to the store without its artist. *)
Theorem song_file_without_artist_column I filepath rs (c : cursor db) :
  read_lines filepath = Some rs →
  Forall (λ k, carried k rs) song_fields →
  ¬ Forall (λ k, carried k rs) artist_fields →
  accepts [song_table_insert] I → I (conn c) →
  let run := process_song_file read_lines filepath in
  ∃ k, k ∈ artist_fields ∧ ¬ carried k rs ∧
       (run c).1 = Raise (KeyError k) ∧
       issued run c
       = [(song_table_insert, cell (first_record read_lines filepath) <$> song_fields)].
Proof.
  intros Hread Hsong Hnot Hacc HI run. unfold run.
  rewrite carried_all in Hnot.
  destruct (getitem_list_raise _ _ Hnot) as (k & Hk & Hmiss & Hraise).
  exists k. split; [done|]. split; [by rewrite carried_columns|].
  destruct (execute_accepted [song_table_insert] I song_table_insert
              (cell (first_record read_lines filepath) <$> song_fields) c)
    as (c1 & Hex & _ & Hlog); [done|apply list_elem_of_here|done|].
  assert (Hrun : process_song_file read_lines filepath c = (Raise (KeyError k), c1)).
  { rewrite (process_song_file_first filepath rs) by done.
    erewrite bind_run_ok; [|exact Hex]. by rewrite Hraise. }
  split; [by rewrite Hrun|]. apply issued_app. by rewrite Hrun.
Qed.

(** X9.  process_song_file, rejected song: when the store rejects the
    song insert, the function raises DatabaseError and the artist insert is
    never issued, whether the artist fields are there or not. *)
Theorem song_file_rejected_insert filepath rs (c : cursor db) :
  read_lines filepath = Some rs →
  Forall (λ k, carried k rs) song_fields →
  db_execute song_table_insert
    (cell (first_record read_lines filepath) <$> song_fields) (conn c) = None →
  let run := process_song_file read_lines filepath in
  (run c).1 = Raise DatabaseError ∧
  issued run c
  = [(song_table_insert, cell (first_record read_lines filepath) <$> song_fields)].
Proof.
  intros Hread Hsong Hrej run. unfold run.
  assert (Hrun : process_song_file read_lines filepath c
                 = (Raise DatabaseError,
                    Cursor (conn c)
                      (executed c ++ [(song_table_insert,
                         cell (first_record read_lines filepath) <$> song_fields)])
                      [])).
  { rewrite (process_song_file_first filepath rs) by done.
    unfold bind, execute. by rewrite Hrej. }
  split; [by rewrite Hrun|]. apply issued_app. by rewrite Hrun.
Qed.

(** X12.  process_song_file, footprint: whatever the file and the
    store, and whether it returns or raises, the function leaves what the
    cursor had executed before in place and adds only song and artist
    inserts: it never reads from the store. *)
Theorem song_file_footprint filepath :
  appends song_statements (process_song_file (db := db) read_lines filepath).
Proof. apply process_song_file_appends. Qed.

(** X13.  process_log_file, footprint: whatever the file and the store,
    and whether it returns or raises, the function leaves what the cursor
    had executed before in place and adds only time, user and songplay
    inserts and song lookups: it never writes a song or an artist. *)
Theorem log_file_footprint filepath :
  appends log_statements (process_log_file (db := db) read_lines filepath).
Proof. apply process_log_file_appends. Qed.
End extractor_outcomes.

Lemma song_file_without_song_column_witness :
  ∃ k, k ∈ song_fields ∧ ¬ carried k [] ∧
       process_song_file example_read "/data/song_data/none.json" example_cursor
       = (Raise (KeyError k), example_cursor).
Proof.
  apply (song_file_without_song_column example_read
           "/data/song_data/none.json" [] example_cursor).
  - reflexivity.
  - by_computation.
Defined.

Lemma song_file_without_artist_column_witness :
  let rs := [delete "artist_location" example_song] in
  let read := example_file "song.json" rs in
  let run := process_song_file read "song.json" in
  ∃ k, k ∈ artist_fields ∧ ¬ carried k rs ∧
       (run example_cursor).1 = Raise (KeyError k) ∧
       issued run example_cursor
       = [(song_table_insert, cell (first_record read "song.json") <$> song_fields)].
Proof.
  apply (song_file_without_artist_column (example_file "song.json" _) (λ _, True)
           "song.json" [delete "artist_location" example_song] example_cursor).
  - reflexivity.
  - by_computation.
  - by_computation.
  - apply catalog_accepts.
  - exact I.
Defined.

Lemma song_file_rejected_insert_witness :
  let run := process_song_file (Store0 := read_only) example_read
               "/data/song_data/A/s1.json" in
  (run (Cursor () [] [])).1 = Raise DatabaseError ∧
  issued run (Cursor () [] [])
  = [(song_table_insert,
      cell (first_record example_read "/data/song_data/A/s1.json") <$> song_fields)].
Proof.
  apply (song_file_rejected_insert (Store0 := read_only) example_read
           "/data/song_data/A/s1.json" [example_song] (Cursor () [] [])).
  - reflexivity.
  - by_computation.
  - reflexivity.
Defined.

(** ** Further properties: the loader over the extractors, and [main] *)

Section loads.
Context {db : Type} `{!Store db}.
Variable read_lines : string → option (list (gmap string value)).
Variable fs_lookup : string → option fstree.
Variable abspath : string → string.
Implicit Types (I : db → Prop) (w : session db)
  (func : string → M (cursor db) unit).

Lemma enumerate_files (l : list string) : (enumerate l).*2 = l.
Proof.
  unfold enumerate. generalize S as g.
  induction l as [|f l IH]; intros g; [done|].
  csimpl. f_equal. apply (IH (g ∘ S)).
Qed.

(** The loader executes nothing of its own: what the cursor has executed
    after a load is what the extractor added, file by file. *)
Lemma process_files_appends qs func n l w :
  (∀ f, appends qs (func f)) →
  ∃ calls, executed (cur (process_files func n l w).2) = executed (cur w) ++ calls ∧
           Forall (λ qa : statement * list value, qa.1 ∈ qs) calls.
Proof.
  intros Hfunc. revert w. induction l as [|[i f] l IH]; intros w.
  - exists []. by rewrite app_nil_r.
  - destruct (Hfunc f (cur w)) as (l1 & Hlog1 & Hin1).
    destruct (func f (cur w)) as [[[]|e] c1] eqn:Hf.
    + rewrite (process_files_round _ _ _ _ _ _ _ Hf).
      destruct (IH (Session (Cursor (db_commit (conn c1)) (executed c1) (resultset c1))
                      (trace w ++ round n (i, f)))) as (l2 & Hlog2 & Hin2).
      exists (l1 ++ l2). split; [|by apply Forall_app].
      rewrite Hlog2. cbn [cur executed]. simpl in Hlog1.
      by rewrite Hlog1, <-app_assoc.
    + rewrite (process_files_raise _ _ _ _ _ _ _ _ Hf). by exists l1.
Qed.

Lemma process_data_appends qs func root w :
  (∀ f, appends qs (func f)) →
  ∃ calls, executed (cur (process_data fs_lookup abspath root func w).2)
           = executed (cur w) ++ calls ∧
           Forall (λ qa : statement * list value, qa.1 ∈ qs) calls.
Proof.
  intros Hfunc. rewrite process_data_unfold.
  by apply (process_files_appends qs func _ _ (Session (cur w) _)).
Qed.

Lemma song_files_run I n (l : list (nat * string)) w :
  Forall (λ idf, is_song_file read_lines idf.2) l →
  accepts song_statements I → (∀ d, I d → I (db_commit d)) → I (conn (cur w)) →
  ∃ w', process_files (process_song_file read_lines) n l w = (Ok (), w') ∧
        I (conn (cur w')) ∧
        executed (cur w') = executed (cur w) ++
          concat ((λ idf, song_calls (first_record read_lines idf.2)) <$> l).
Proof.
  intros Hfiles Hacc Hcommit. revert w.
  induction Hfiles as [|[i f] l Hfile _ IH]; intros w HI.
  - exists w. split; [done|]. split; [done|]. simpl. by rewrite app_nil_r.
  - unfold is_song_file in Hfile. cbn [snd] in Hfile.
    destruct (read_lines f) as [rs|] eqn:Hread; [|done].
    assert (∃ r rs', rs = r :: rs') as (r & rs' & ->).
    { destruct rs as [|r rs']; [|by eauto].
      apply Forall_cons in Hfile as [Hid _]. apply carried_columns in Hid.
      by apply columns_empty in Hid. }
    apply carried_all in Hfile.
    destruct (process_song_file_run read_lines I f r rs' (cur w))
      as (c1 & Hrun & HI1 & Hlog1); [done..|].
    rewrite (process_files_round _ _ _ _ _ _ _ Hrun).
    destruct (IH (Session (Cursor (db_commit (conn c1)) (executed c1) (resultset c1))
                    (trace w ++ round n (i, f)))) as (w' & Hrest & HI' & Hlog2).
    { by apply Hcommit. }
    exists w'. split; [done|]. split; [done|].
    rewrite Hlog2. cbn [cur executed]. rewrite Hlog1, fmap_cons. cbn [concat snd].
    unfold first_record at 2. rewrite Hread. by rewrite <-app_assoc.
Qed.

(** X14.  process_data over process_song_file: when every discovered file
    is in the song format, the store accepts the two inserts and keeps
    accepting them after a commit, the load returns normally and what it
    executes is, file by file in discovery order, the song insert and then
    the artist insert of the file's first record: two statements per file,
    and nothing for the other records of a file. *)
Theorem song_load_composition I root w :
  Forall (is_song_file read_lines) (discover fs_lookup abspath root) →
  accepts song_statements I → (∀ d, I d → I (db_commit d)) → I (conn (cur w)) →
  let run := process_data fs_lookup abspath root (process_song_file read_lines) in
  (run w).1 = Ok () ∧
  executed (cur (run w).2)
  = executed (cur w) ++
    concat ((λ f, song_calls (first_record read_lines f))
              <$> discover fs_lookup abspath root).
Proof.
  intros Hfiles Hacc Hcommit HI run. unfold run. rewrite process_data_unfold.
  set (files := discover fs_lookup abspath root) in *.
  destruct (song_files_run I (length files) (enumerate files)
              (Session (cur w)
                 (trace w ++ [Printed (pretty (length files) +:+ " files found in "
                                       +:+ root)])))
    as (w' & Hrun & _ & Hlog); [|done..|].
  { apply (Forall_fmap snd (is_song_file read_lines) (enumerate files)).
    by rewrite enumerate_files. }
  rewrite Hrun. split; [done|]. cbn [snd]. rewrite Hlog. cbn [cur].
  f_equal. f_equal.
  rewrite <-(enumerate_files files) at 2. by rewrite <-list_fmap_compose.
Qed.
End loads.

Lemma song_load_composition_witness :
  let run := process_data example_fs example_abspath "data/song_data"
               (process_song_file example_read) in
  (run example_session).1 = Ok () ∧
  executed (cur (run example_session).2)
  = executed (cur example_session) ++
    concat ((λ f, song_calls (first_record example_read f))
              <$> discover example_fs example_abspath "data/song_data").
Proof.
  apply (song_load_composition example_read example_fs example_abspath
           (λ _, True) "data/song_data" example_session).
  - by_computation.
  - apply catalog_accepts.
  - done.
  - exact I.
Defined.

Section main_facts.
Context {db : Type} `{!Store db}.
Variable read_lines : string → option (list (gmap string value)).
Variable fs_lookup : string → option fstree.
Variable abspath : string → string.
Implicit Types (w : session db) (func : string → M (cursor db) unit).

(** The two loads of [main], from the state in which the first one
    starts. *)
Lemma main_unfold d :
  main read_lines fs_lookup abspath (Some d)
  = let w0 := Session (Cursor d [] []) [] in
    let song_load := process_data fs_lookup abspath "data/song_data"
                       (process_song_file read_lines) in
    let log_load := process_data fs_lookup abspath "data/log_data"
                      (process_log_file read_lines) in
    match song_load w0 with
    | (Raise e, w1) => (Raise e, Some (w1, []))
    | (Ok _, w1) =>
        match log_load w1 with
        | (Raise e, w2) => (Raise e, Some (w2, []))
        | (Ok _, w2) => (Ok (), Some (w2, [CursorClosed; ConnectionClosed]))
        end
    end.
Proof.
  unfold main, bind, in_session, close. cbn [fst snd]. cbv zeta.
  destruct (process_data _ _ "data/song_data" _ _) as [[[]|e] w1]; [|done].
  by destruct (process_data _ _ "data/log_data" _ _) as [[[]|e] w2].
Qed.

(** X15.  main, closing: once connected, main runs the song load and,
    when that has returned, the log load from the state the song load
    left.  It returns, with the cursor closed and then the connection,
    exactly when both loads have returned.  When the song load raises,
    main ends with that exception in the state in which the song load
    stopped: the log load is not started and nothing is closed.  When the
    log load raises, main ends with that exception and nothing is
    closed. *)
Theorem main_closes_iff_returns d :
  let song_load := process_data fs_lookup abspath "data/song_data"
                     (process_song_file read_lines)
                     (Session (Cursor d [] []) []) in
  let log_load := process_data fs_lookup abspath "data/log_data"
                    (process_log_file read_lines) song_load.2 in
  let result := main read_lines fs_lookup abspath (Some d) in
  (song_load.1 = Ok () ∧ log_load.1 = Ok () ∧
   result = (Ok (), Some (log_load.2, [CursorClosed; ConnectionClosed]))) ∨
  (∃ e, song_load.1 = Raise e ∧ result = (Raise e, Some (song_load.2, []))) ∨
  (∃ e, song_load.1 = Ok () ∧ log_load.1 = Raise e ∧
        result = (Raise e, Some (log_load.2, []))).
Proof.
  cbv zeta. rewrite main_unfold. cbv zeta.
  destruct (process_data _ _ "data/song_data" _ _) as [[[]|e] w1];
    [|right; left; by exists e].
  cbn [snd fst].
  destruct (process_data _ _ "data/log_data" _ _) as [[[]|e] w2].
  - by left.
  - right. right. by exists e.
Qed.

(** X16.  main, statements: once connected, and whether it returns or
    raises, what main leaves executed on its cursor is a run of song and
    artist inserts followed by a run of time, user and songplay inserts and
    song lookups: no event is looked up before the last song file has been
    loaded, and no other statement is executed. *)
Theorem main_statement_order d :
  ∃ w closed calls1 calls2,
    (main read_lines fs_lookup abspath (Some d)).2 = Some (w, closed) ∧
    executed (cur w) = calls1 ++ calls2 ∧
    Forall (λ qa : statement * list value, qa.1 ∈ song_statements) calls1 ∧
    Forall (λ qa : statement * list value, qa.1 ∈ log_statements) calls2.
Proof.
  rewrite main_unfold. cbv zeta.
  destruct (process_data_appends fs_lookup abspath song_statements
              (process_song_file read_lines) "data/song_data"
              (Session (Cursor d [] []) []))
    as (calls1 & Hlog1 & Hin1); [apply process_song_file_appends|].
  destruct (process_data _ _ "data/song_data" _ _) as [[[]|e] w1];
    [|exists w1, [], calls1, []; by rewrite app_nil_r].
  destruct (process_data_appends fs_lookup abspath log_statements
              (process_log_file read_lines) "data/log_data" w1)
    as (calls2 & Hlog2 & Hin2); [apply process_log_file_appends|].
  cbn [snd cur executed] in Hlog1. cbn [app] in Hlog1.
  destruct (process_data _ _ "data/log_data" _ _) as [[[]|e] w2];
    eexists w2, _, calls1, calls2; (split; [done|]);
    cbn [snd] in Hlog2; by rewrite Hlog2, Hlog1.
Qed.

End main_facts.

(** ** Further properties: which files the loader finds *)

Lemma fstree_induction (P : fstree → Prop) :
  P File →
  (∀ entries, Forall (λ e : string * fstree, P e.2) entries → P (Dir entries)) →
  ∀ t, P t.
Proof.
  intros HF HD. fix IH 1. intros [|entries]; [exact HF|].
  apply HD. induction entries as [|e entries IHe]; constructor; [apply IH|exact IHe].
Qed.

Lemma elem_of_flat_map {A B} (f : A → list B) (l : list A) (y : B) :
  y ∈ flat_map f l ↔ ∃ x, x ∈ l ∧ y ∈ f x.
Proof.
  rewrite list_elem_of_In, in_flat_map. split.
  - intros (x & Hx & Hy). exists x. by rewrite !list_elem_of_In.
  - intros (x & Hx & Hy). exists x. by rewrite <-!list_elem_of_In.
Qed.

(** [os.walk] yields the directories of the tree, at every depth, each
    with the names of its entries. *)
Lemma walk_subdir t top dir names :
  (dir, names) ∈ walk top t ↔
  ∃ entries, subdir top t dir entries ∧ names = entries.*1.
Proof.
  revert top. induction t as [|entries IH] using fstree_induction; intros top.
  - simpl. split; [by intros ?%not_elem_of_nil|].
    intros (entries & Hsub & _). inversion Hsub.
  - cbn [walk]. rewrite elem_of_cons, elem_of_flat_map. split.
    + intros [[= -> ->]|([n sub] & Hin & Hwalk)].
      * exists entries. split; [constructor|done].
      * rewrite Forall_forall in IH. apply (IH _ Hin) in Hwalk.
        destruct Hwalk as (entries' & Hsub & ->). exists entries'.
        split; [|done]. by eapply subdir_below.
    + intros (entries' & Hsub & ->). inversion Hsub as [|? ? n sub ? ? Hin Hbelow]; subst.
      * by left.
      * right. exists (n, sub). split; [done|].
        rewrite Forall_forall in IH. apply (IH _ Hin). eauto.
Qed.

Section discovery.
Variable fs_lookup : string → option fstree.
Variable abspath : string → string.

(** X17.  process_data, discovery: when neither the root path nor the
    name of a directory below it holds a wildcard character of glob
    ([*], [?], [[]), the files that the loader hands to its extractor are
    exactly the absolute paths of the entries, at any depth below the
    root, whose name ends in [.json] and does not start with a dot.  An
    entry qualifies by its name alone: a directory named like that is
    handed over as a file (and still searched), and a hidden directory is
    searched like any other. *)
Theorem discovery_by_name root t p :
  fs_lookup root = Some t →
  has_magic root = false → plain_dirs t = true →
  p ∈ discover fs_lookup abspath root ↔
  ∃ dir entries n,
    subdir root t dir entries ∧
    n ∈ entries.*1 ∧ json_name n ∧ p = abspath (path_join dir n).
Proof.
  intros Hroot _ _. unfold discover. rewrite Hroot.
  rewrite list_elem_of_fmap. split.
  - intros (q & -> & Hq). apply elem_of_flat_map in Hq as ([dir names] & Hwalk & Hq).
    apply walk_subdir in Hwalk as (entries & Hsub & ->).
    unfold glob_json in Hq. cbn [fst snd] in Hq.
    apply list_elem_of_fmap in Hq as (n & -> & Hn).
    apply list_elem_of_filter in Hn as [Hname Hn].
    by exists dir, entries, n.
  - intros (dir & entries & n & Hsub & Hn & Hname & ->).
    exists (path_join dir n). split; [done|].
    apply elem_of_flat_map. exists (dir, entries.*1). split.
    + apply walk_subdir. eauto.
    + unfold glob_json. cbn [fst snd]. apply list_elem_of_fmap.
      exists n. split; [done|]. by apply list_elem_of_filter.
Qed.
End discovery.

Lemma discovery_by_name_witness :
  "/data/song_data/A/s1.json" ∈ discover example_fs example_abspath "data/song_data" ↔
  ∃ dir entries n,
    subdir "data/song_data" (Dir [("A", Dir [("s1.json", File)])]) dir entries ∧
    n ∈ entries.*1 ∧ json_name n ∧
    "/data/song_data/A/s1.json" = example_abspath (path_join dir n).
Proof.
  apply (discovery_by_name example_fs example_abspath "data/song_data"
           (Dir [("A", Dir [("s1.json", File)])]) "/data/song_data/A/s1.json").
  - reflexivity.
  - reflexivity.
  - reflexivity.
Defined.
